(** * merger.py: merging two SQLite snapshots with a priority override

    A shallow embedding of [Analyzers/merger.py] and of the pandas and
    sqlite3 operations it calls, followed by the properties of its three
    parts: [get_primary_keys], [merge_tables_by_key] and [merge_databases]. *)

From Stdlib Require Import ZArith String Ascii.
From stdpp Require Import base decidable option numbers list sorting strings gmap fin_maps.

Local Open Scope Z_scope.
Local Open Scope string_scope.
Local Open Scope list_scope.

(** ** Values, rows and frames *)

(** A cell that is not NULL.  sqlite3 hands INTEGER cells to Python as
    [int] and TEXT cells as [str].  [VInt z] is a numeric cell of integral
    value [z], whether pandas keeps its column as int64 or, because the
    column also holds NULL, as float64 (see [column_dtype]); REAL cells with
    a fractional part are outside this model. *)
Inductive value :=
  | VInt (z : Z)
  | VText (s : string).

Global Instance value_eq_dec : EqDecision value.
Proof. solve_decision. Defined.

(** A row maps a column label to its value; a label that is absent from the
    map is a NULL cell (what pandas' [isna] answers [True] for).  A key is
    the tuple of cells of a row at the key columns. *)
Abbreviation cell := (option value) (only parsing).
Abbreviation row := (gmap string value) (only parsing).
Abbreviation key := (list (option value)) (only parsing).

(** [pandas.DataFrame] with the default RangeIndex, as [pd.read_sql] builds it. *)
Record DataFrame := {
  columns : list string;
  rows : list row
}.

(** A frame after [set_index]: the index level names, the remaining column
    labels, and for every row its index tuple and its remaining cells. *)
Record IndexedFrame := {
  names : list string;
  icolumns : list string;
  entries : list (key * row)
}.

Definition index (d : IndexedFrame) : list key := (entries d).*1.

(** Python exceptions met in this program; all derive from [Exception]. *)
Inductive exn :=
  | KeyError (missing : list string)
  | ValueError (msg : string)
  | DatabaseError (msg : string)
  | OperationalError (msg : string).

Inductive result (A : Type) :=
  | Ok (a : A)
  | Raise (e : exn).
Arguments Ok {A} a.
Arguments Raise {A} e.

Global Instance result_ret : MRet result := λ A a, Ok a.
Global Instance result_bind : MBind result := λ A B f m,
  match m with Ok a => f a | Raise e => Raise e end.

(** ** Ordering of keys *)

(** Values of one storage class compare as Python compares them; pandas
    sorts integers before text in a mixed object array and missing values
    last. *)
Definition string_le (s t : string) : Prop := String.leb s t.

Definition value_le (a b : value) : Prop :=
  match a, b with
  | VInt x, VInt y => (x ≤ y)%Z
  | VInt _, VText _ => True
  | VText _, VInt _ => False
  | VText s, VText t => string_le s t
  end.

Definition cell_le (a b : cell) : Prop :=
  match a, b with
  | Some x, Some y => value_le x y
  | Some _, None => True
  | None, Some _ => False
  | None, None => True
  end.

(** Tuples compare lexicographically, position by position. *)
Fixpoint key_le (k1 k2 : key) : Prop :=
  match k1, k2 with
  | [], _ => True
  | _ :: _, [] => False
  | a :: k1', b :: k2' => if decide (a = b) then key_le k1' k2' else cell_le a b
  end.

(** Ascending without repetition. *)
Definition key_lt (k1 k2 : key) : Prop := key_le k1 k2 ∧ k1 ≠ k2.

Global Instance string_le_dec : RelDecision string_le.
Proof. intros s t. unfold string_le. apply _. Defined.

Global Instance value_le_dec : RelDecision value_le.
Proof. intros [x|s] [y|t]; simpl; apply _. Defined.

Global Instance cell_le_dec : RelDecision cell_le.
Proof. intros [x|] [y|]; simpl; apply _. Defined.

Global Instance key_le_dec : RelDecision key_le.
Proof.
  intros k1. induction k1 as [|a k1 IH]; intros [|b k2]; simpl; try apply _.
  destruct (decide (a = b)); [apply IH | apply _].
Defined.

(** Python compares two cells only when both are integers or both are
    text; a missing cell compares with nothing. *)
Definition same_type (a b : cell) : bool :=
  match a, b with
  | Some (VInt _), Some (VInt _) => true
  | Some (VText _), Some (VText _) => true
  | _, _ => false
  end.

Fixpoint comparable (k1 k2 : key) : bool :=
  match k1, k2 with
  | [], [] => true
  | a :: k1', b :: k2' => same_type a b && comparable k1' k2'
  | _, _ => false
  end.

(** All labels can be compared with one another: none has a missing cell
    and, position by position, they are all integers or all text. *)
Definition comparable_all (L : list key) : bool :=
  match L with
  | [] => true
  | k0 :: _ => forallb (comparable k0) L
  end.

(** [Index.is_monotonic_increasing]: false as soon as two neighbours cannot
    be compared. *)
Fixpoint monotonic (L : list key) : bool :=
  match L with
  | [] => true
  | k1 :: L' =>
      match L' with
      | [] => comparable k1 k1
      | k2 :: _ => comparable k1 k2 && bool_decide (key_le k1 k2) && monotonic L'
      end
  end.

(** The index has one level ([set_index] was given one column). *)
Definition single_level (L : list key) : bool :=
  forallb (λ k, bool_decide (length k = 1%nat)) L.

(** ** SchemaInspector: [get_primary_keys] *)

(** One row of [PRAGMA table_info(t)]: (cid, name, type, notnull,
    dflt_value, pk).  SQLite sets [pk] to 0 for a column outside the primary
    key and to the 1-based position of the column within the primary key
    otherwise. *)
Record table_info_row := {
  ti_cid : Z;
  ti_name : string;
  ti_type : string;
  ti_notnull : Z;
  ti_dflt_value : option string;
  ti_pk : Z
}.

(** The list comprehension of [get_primary_keys] over [cursor.fetchall()]:
    [[row[1] for row in ... if row[5] == 1]]. *)
Definition primary_key_names (fetched : list table_info_row) : list string :=
  ti_name <$> filter (λ r, ti_pk r = 1) fetched.

(** The columns the schema flags as primary key, in the words of the
    specification: every column whose [pk] entry is not 0. *)
Definition declared_primary_keys (fetched : list table_info_row) : list string :=
  ti_name <$> filter (λ r, ti_pk r ≠ 0) fetched.

(** ** TableMerger: the pandas operations *)

(** [merge_tables_by_key] is three pandas calls: [set_index(primary_keys)]
    on both frames, [df_priority.combine_first(df_fallback)], and
    [reset_index()].  They are modelled as pandas 2.x carries them out.
    [combine_first] goes through [DataFrame.combine], which first aligns
    the two frames: indexes that are equal, label for label, are kept as
    they are, and any other pair is replaced by its outer join, whose
    labels are the union, sorted when the labels can be compared.  Every
    cell of the result is then the cell of [self] unless that is missing,
    in which case it is the cell of [other]; aligning and combining change
    the dtype of a column of integers where rows or values are missing,
    which sends its cells through float64. *)

Definition row_key (keys : list string) (r : row) : key := (λ c, r !! c) <$> keys.

Definition drop_columns (keys : list string) (r : row) : row := foldr delete r keys.

(** The frame [df.set_index(keys)] builds (drop=True): the key columns
    move from the cells of every row into its index tuple. *)
Definition indexed (df : DataFrame) (keys : list string) : IndexedFrame :=
  {| names := keys;
     icolumns := filter (λ c, c ∉ keys) (columns df);
     entries := (λ r, (row_key keys r, drop_columns keys r)) <$> rows df |}.

(** [df.set_index(keys)]: raises KeyError when a label is not a column, and
    cannot build an index from no level at all. *)
Definition set_index (df : DataFrame) (keys : list string) : result IndexedFrame :=
  match filter (λ c, c ∉ columns df) keys with
  | [] =>
      match keys with
      | [] => Raise (ValueError "Must pass non-zero number of levels/codes")
      | _ => Ok (indexed df keys)
      end
  | missing => Raise (KeyError missing)
  end.

(** Rows of a frame under one index label; reindexing at a label the frame
    does not have yields one row of missing values. *)
Definition rows_at (k : key) (es : list (key * row)) : list row :=
  snd <$> filter (λ e, e.1 = k) es.

Definition reindexed (l : list row) : list row :=
  match l with [] => [∅] | _ => l end.

(** The aligned rows under one label: every row of the left side with
    every row of the right side that carries it. *)
Definition paired (k : key) (E1 E2 : list (key * row)) : list (key * (row * row)) :=
  x ← reindexed (rows_at k E1); y ← reindexed (rows_at k E2); [(k, (x, y))].

(** Whether the outer join of two indexes comes out sorted.  Labels that
    can all be compared are sorted.  Otherwise a one-level index whose
    sides are not both monotonic goes through pandas' sort of mixed
    values (integers, then text, then missing), which is the order
    [key_le]; in every other case the comparison fails and the union is
    left as it was built. *)
Definition sorts (I1 I2 : list key) : bool :=
  comparable_all (I1 ++ I2)
  || (single_level (I1 ++ I2) && negb (monotonic I1 && monotonic I2)).

(** The labels of [Index.join(how="outer")]: the distinct labels of both
    sides, ascending when they can be sorted, and otherwise the labels of
    the left side followed by the labels only the right side has. *)
Definition join_labels (I1 I2 : list key) : list key :=
  if sorts I1 I2
  then merge_sort key_le (remove_dups (I1 ++ I2))
  else remove_dups I1 ++ remove_dups (filter (λ k, k ∉ I1) I2).

(** [Index.join(how="outer")] with its indexers: every label with the rows
    of the left and of the right side that carry it. *)
Definition join_outer (E1 E2 : list (key * row)) : list (key * (row * row)) :=
  k ← join_labels (E1.*1) (E2.*1);
  paired k E1 E2.

(** [self.align(other)] on the row axis: frames whose indexes are equal are
    left as they are, otherwise both are reindexed to the outer join. *)
Definition align (E1 E2 : list (key * row)) : list (key * (row * row)) :=
  if decide (E1.*1 = E2.*1)
  then zip_with (λ e1 e2, (e1.1, (e1.2, e2.2))) E1 E2
  else join_outer E1 E2.

(** [Index.union] of the column labels: unchanged when both sides agree,
    sorted otherwise. *)
Definition union_columns (c1 c2 : list string) : list string :=
  if decide (c1 = c2) then c1 else merge_sort string_le (remove_dups (c1 ++ c2)).

(** *** Column dtypes

    [pd.read_sql] gives a column of integers the dtype int64, a column of
    integers and NULLs float64, and any other column object.  Reindexing a
    frame to labels it lacks fills the new rows with NaN, which turns its
    int64 columns into float64; [where] on an int64 and a float64 column
    yields float64; and [combine_first] casts a column that both frames
    hold as int64 back to int64.  The conversions are written out on the
    integer value of a cell. *)

Inductive dtype := Int64 | Float64 | Object.

Global Instance dtype_eq_dec : EqDecision dtype.
Proof. solve_decision. Defined.

(** int64 to float64: round to nearest, ties to even, on a significand of
    53 bits. *)
Definition round_float64 (z : Z) : Z :=
  let a := Z.abs z in
  if (a <? 2 ^ 53)%Z then z
  else
    let s := (Z.log2 a - 52)%Z in
    let q := Z.shiftr a s in
    let r := (a - Z.shiftl q s)%Z in
    let half := Z.shiftl 1 (s - 1) in
    let q' := if (half <? r)%Z || ((r =? half)%Z && Z.odd q) then (q + 1)%Z else q in
    (Z.sgn z * Z.shiftl q' s)%Z.

Definition to_float64 (v : value) : value :=
  match v with
  | VInt z => VInt (round_float64 z)
  | VText s => VText s
  end.

(** float64 to int64, [astype] on the values [round_float64] produces: 2^63
    is out of range and becomes -2^63. *)
Definition to_int64 (v : value) : value :=
  match v with
  | VInt z => VInt (if (2 ^ 63 <=? z)%Z then (- 2 ^ 63)%Z else z)
  | VText s => VText s
  end.

Definition is_int (v : cell) : bool :=
  match v with Some (VInt _) => true | _ => false end.

Definition is_text (v : cell) : bool :=
  match v with Some (VText _) => true | _ => false end.

(** The dtype of a column of a frame; a column the frame lacks is all NaN
    once the frames are aligned. *)
Definition column_dtype (d : IndexedFrame) (c : string) : dtype :=
  if decide (c ∈ icolumns d) then
    let cells := (λ e, e.2 !! c) <$> entries d in
    if bool_decide (cells ≠ []) && forallb is_int cells then Int64
    else if existsb is_int cells && negb (existsb is_text cells) then Float64
    else Object
  else Float64.

(** Aligning gives the frame with index [I] rows it did not have. *)
Definition lacks (I : list key) (aligned : list (key * (row * row))) : bool :=
  existsb (λ a, bool_decide (a.1 ∉ I)) aligned.

(** The aligned column is float64 and holds a value.  Against a column
    that is all NaN, as is one the frame lacks, [combine] keeps the column
    of [self] as aligned. *)
Definition as_float (d : IndexedFrame) (miss : bool) (c : string) : bool :=
  bool_decide (c ∈ icolumns d)
  && match column_dtype d c with
     | Int64 => miss
     | Float64 => true
     | Object => false
     end.

(** The int64 cells of column [c] of [d] become float64, by reindexing or
    by [where] against a float64 column of the other frame. *)
Definition promoted (d other : IndexedFrame) (miss miss_other : bool) (c : string)
    : bool :=
  bool_decide (column_dtype d c = Int64) && (miss || as_float other miss_other c).

(** Apply a conversion to the cells of the columns a test selects. *)
Definition convert (f : string → bool) (g : value → value) (x : row) : row :=
  map_imap (λ c v, Some (if f c then g v else v)) x.

(** [DataFrame.empty]: some axis has length 0. *)
Definition frame_empty (d : IndexedFrame) : bool :=
  bool_decide (icolumns d = []) || bool_decide (entries d = []).

(** The combiner of [combine_first], [where(isna(x), y, x)], column by
    column over the aligned frames: on rows, the left-biased union of the
    cells as their columns' dtypes leave them.  A column of [other] that
    [self] lacks is taken over as aligned; the cast back to int64 that
    [combine_first] applies to the result is folded in. *)
Definition combined (self other : IndexedFrame)
    (aligned : list (key * (row * row))) : list (key * row) :=
  let miss_x := lacks (index self) aligned in
  let miss_y := lacks (index other) aligned in
  let px := promoted self other miss_x miss_y in
  let py := λ c,
    if decide (c ∈ icolumns self) then promoted other self miss_y miss_x c
    else bool_decide (column_dtype other c = Int64) && miss_y in
  let back := λ c,
    bool_decide (c ∈ icolumns self) && bool_decide (c ∈ icolumns other)
    && bool_decide (column_dtype self c = Int64)
    && bool_decide (column_dtype other c = Int64)
    && (miss_x || miss_y) in
  (λ a, (a.1, convert back to_int64
                (convert px to_float64 a.2.1 ∪ convert py to_float64 a.2.2)))
    <$> aligned.

(** [self.combine(other, combiner, overwrite=False)]. *)
Definition frame_combine (self other : IndexedFrame) : IndexedFrame :=
  let other_idxlen := length (entries other) in
  let aligned := align (entries self) (entries other) in
  let new_columns := union_columns (icolumns self) (icolumns other) in
  let this := {| names := names self; icolumns := new_columns;
                 entries := (λ a, (a.1, a.2.1)) <$> aligned |} in
  let other' := {| names := names other; icolumns := new_columns;
                   entries := (λ a, (a.1, a.2.2)) <$> aligned |} in
  if frame_empty other' && bool_decide (length (entries this) = length (entries self))
  then self
  else if frame_empty self && bool_decide (length (entries other') = other_idxlen)
  then other'
  else {| names := names self; icolumns := new_columns;
          entries := combined self other aligned |}.

(** [self.combine_first(other)]: an [other] without rows only contributes
    its extra column labels. *)
Definition combine_first (self other : IndexedFrame) : IndexedFrame :=
  if bool_decide (entries other = [])
  then {| names := names self;
          icolumns := icolumns self ++
            merge_sort string_le
              (filter (λ c, c ∉ icolumns self) (remove_dups (icolumns other)));
          entries := entries self |}
  else frame_combine self other.

(** [reset_index()]: the index levels are inserted as leading columns, last
    level first; inserting a label that is already a column raises. *)
Definition insert_levels (levels cols : list string) : result (list string) :=
  foldr (λ name acc,
           cs ← acc;
           if decide (name ∈ cs)
           then Raise (ValueError ("cannot insert " +:+ name +:+ ", already exists"))
           else Ok (name :: cs))
        (Ok cols) levels.

Definition restore_key (levels : list string) (k : key) (r : row) : row :=
  foldr (λ nv acc, partial_alter (λ _, nv.2) nv.1 acc) r (zip levels k).

Definition reset_index (d : IndexedFrame) : result DataFrame :=
  cs ← insert_levels (names d) (icolumns d);
  Ok {| columns := cs;
        rows := (λ e, restore_key (names d) e.1 e.2) <$> entries d |}.

(** [merge_tables_by_key(df_priority, df_fallback, primary_keys)]. *)
Definition merge_tables_by_key (df_priority df_fallback : DataFrame)
    (primary_keys : list string) : result DataFrame :=
  df_priority ← set_index df_priority primary_keys;
  df_fallback ← set_index df_fallback primary_keys;
  let df_merged := reset_index (combine_first df_priority df_fallback) in
  df_merged.

(** The merge keys of a frame, row by row. *)
Definition keys_of (keys : list string) (df : DataFrame) : list key :=
  row_key keys <$> rows df.

(** Every cell of a row sits under a column of its frame. *)
Definition well_formed (df : DataFrame) : Prop :=
  ∀ r c, r ∈ rows df → is_Some (r !! c) → c ∈ columns df.

(** An integer cell that float64 holds exactly, and that is an int64. *)
Definition exact (v : value) : Prop :=
  match v with
  | VInt z => round_float64 z = z ∧ (z < 2 ^ 63)%Z
  | VText _ => True
  end.

Global Instance exact_dec v : Decision (exact v).
Proof. destruct v; simpl; apply _. Defined.

(** Every integer cell of the frame is exact. *)
Definition exact_frame (df : DataFrame) : Prop :=
  ∀ r c v, r ∈ rows df → r !! c = Some v → exact v.

(** A function on cells that leaves text and exact integers alone. *)
Definition gentle (g : value → value) : Prop := ∀ v, exact v → g v = v.

(** [z] is [x] overlaid on [y], field by field, up to the casts of the
    merge. *)
Definition overlaid (x y z : row) : Prop :=
  ∀ c, ∃ g1 g2, gentle g1 ∧ gentle g2
    ∧ z !! c = match x !! c with
               | Some v => Some (g1 v)
               | None => g2 <$> y !! c
               end.

(** A frame without columns holds no cell. *)
Definition tidy (d : IndexedFrame) : Prop :=
  icolumns d = [] → ∀ e, e ∈ entries d → e.2 = ∅.

(** The inputs for which [combine_first] hands the priority rows back in
    their own order: the fallback has no rows, or both inputs list the same
    keys in the same order, or no input has a column besides the key
    columns and every fallback key is a priority key. *)
Definition priority_order (P F : DataFrame) (keys : list string) : Prop :=
  rows F = []
  ∨ keys_of keys P = keys_of keys F
  ∨ (filter (λ c, c ∉ keys) (columns P) = []
     ∧ filter (λ c, c ∉ keys) (columns F) = []
     ∧ Forall (λ k, k ∈ keys_of keys P) (keys_of keys F)).

Global Instance priority_order_dec P F keys : Decision (priority_order P F keys).
Proof. unfold priority_order. apply _. Defined.

(** ** MergeOrchestrator: [merge_databases] *)

(** [str.lower()] on the bytes of a name.  Only the letters A-Z change; no
    character outside ASCII lowers to a letter of "matches", so the test
    [table.lower() == "matches"] is decided by these bytes. *)
Definition lower_ascii (c : ascii) : ascii :=
  let n := N_of_ascii c in
  if ((65 <=? n) && (n <=? 90))%N then ascii_of_N (n + 32) else c.

Fixpoint lower (s : string) : string :=
  match s with
  | EmptyString => EmptyString
  | String c s' => String (lower_ascii c) (lower s')
  end.

(** The three connections of a run. *)
Inductive handle := Priority | Fallback | Output.

Global Instance handle_eq_dec : EqDecision handle.
Proof. solve_decision. Defined.

(** How a write fails.  With [if_exists='replace'], [to_sql] first drops
    the table of that name, then creates it and inserts the rows; the DROP
    and the CREATE are committed on their own.  A fault either comes before
    the DROP, and nothing has changed, or after it, and then the table
    holds what the failed write left of it: nothing, or the rows that
    stayed. *)
Inductive write_fault :=
  | FaultBefore (e : exn)
  | FaultAfter (e : exn) (remains : option DataFrame).

(** What the run meets outside the program: the file system, the two
    source databases and the faults of the storage layer.  [sink] is the
    content of the output database before the run (empty for a new file). *)
Record world := {
  (* os.path.exists(path) *)
  path_exists : string → bool;
  (* the exception sqlite3.connect(path) raises, if any *)
  connect : string → option exn;
  (* pd.read_sql("SELECT name FROM sqlite_master WHERE type='table';",
     conn_priority), as the list tables['name'].tolist() *)
  sqlite_master : result (list string);
  (* pd.read_sql(f"SELECT * FROM {table}", conn) *)
  select_all : handle → string → result DataFrame;
  (* conn.execute(f"PRAGMA table_info({table_name})").fetchall() *)
  table_info : handle → string → result (list table_info_row);
  (* the fault of df.to_sql(table, conn_output, ...), if any *)
  to_sql_fault : string → DataFrame → option write_fault;
  sink : gmap string DataFrame
}.

(** [get_primary_keys(conn, table_name)]. *)
Definition get_primary_keys (w : world) (conn : handle) (table_name : string)
    : result (list string) :=
  fetched ← table_info w conn table_name;
  mret (primary_key_names fetched).

(** The lines the run prints. *)
Inductive event :=
  | FileNotFound (path : string)
  | MergingTable (table : string)
  | SchemaMismatch (table : string)
  | FallbackKeys (table : string) (keys : list string)
  | NoPrimaryKey (table : string)
  | Merged (n : nat) (table : string)
  | ErrorMerging (table : string) (e : exn)
  | MergeComplete (path : string).

Record state := {
  connections : list handle;
  output_db : gmap string DataFrame;
  stdout : list event
}.

(** How the run ends: it returns, [sys.exit] stops it, or an exception
    leaves [merge_databases]. *)
Inductive exit :=
  | Returned
  | SysExit (code : Z)
  | Uncaught (e : exn).

(** The body of the [for] loop runs in a monad over [state] in which a
    statement completes, executes [continue], or raises. *)
Inductive signal (A : Type) :=
  | Normal (a : A)
  | Continue
  | Raised (e : exn).
Arguments Normal {A} a.
Arguments Continue {A}.
Arguments Raised {A} e.

Definition M (A : Type) : Type := state → state * signal A.

Global Instance M_ret : MRet M := λ A a st, (st, Normal a).
Global Instance M_bind : MBind M := λ A B f m st,
  match m st with
  | (st', Normal a) => f a st'
  | (st', Continue) => (st', Continue)
  | (st', Raised e) => (st', Raised e)
  end.

Definition lift {A} (r : result A) : M A := λ st,
  (st, match r with Ok a => Normal a | Raise e => Raised e end).

Definition continue {A} : M A := λ st, (st, Continue).

Definition print (e : event) : M unit := λ st,
  ({| connections := connections st; output_db := output_db st;
      stdout := stdout st ++ [e] |}, Normal ()).

(** [df.to_sql(table, conn_output, if_exists='replace', index=False)]. *)
Definition to_sql (w : world) (table : string) (df : DataFrame) : M unit := λ st,
  match to_sql_fault w table df with
  | Some (FaultBefore e) => (st, Raised e)
  | Some (FaultAfter e remains) =>
      ({| connections := connections st;
          output_db := partial_alter (λ _, remains) table (output_db st);
          stdout := stdout st |}, Raised e)
  | None => ({| connections := connections st;
                output_db := <[table := df]> (output_db st);
                stdout := stdout st |}, Normal ())
  end.

(** The statements inside [try:]. *)
Definition merge_table (w : world) (table : string) : M unit :=
  df_priority ← lift (select_all w Priority table);
  df_fallback ← lift (select_all w Fallback table);
  (if bool_decide (list_to_set (columns df_priority)
                   ≠@{gset string} list_to_set (columns df_fallback))
   then print (SchemaMismatch table);; continue
   else mret ());;
  primary_keys ← lift (get_primary_keys w Priority table);
  primary_keys ←
    (if bool_decide (primary_keys = [])
     then if bool_decide (lower table = "matches")
          then print (FallbackKeys table ["key"; "team_key"]);;
               mret ["key"; "team_key"]
          else print (NoPrimaryKey table);; continue
     else mret primary_keys);
  df_merged ← lift (merge_tables_by_key df_priority df_fallback primary_keys);
  to_sql w table df_merged;;
  print (Merged (length (rows df_merged)) table).

(** One iteration of the loop: the announcement, then [try: ... except
    Exception as e: print(...)]. *)
Definition merge_one (w : world) (st : state) (table : string) : state :=
  let st := (print (MergingTable table) st).1 in
  match merge_table w table st with
  | (st', Raised e) => (print (ErrorMerging table e) st').1
  | (st', _) => st'
  end.

Definition opened (h : handle) (st : state) : state :=
  {| connections := connections st ++ [h]; output_db := output_db st;
     stdout := stdout st |}.

Definition closed (h : handle) (st : state) : state :=
  {| connections := filter (λ h', h' ≠ h) (connections st);
     output_db := output_db st; stdout := stdout st |}.

(** The first path of the validation loop that does not exist. *)
Fixpoint first_missing (w : world) (paths : list string) : option string :=
  match paths with
  | [] => None
  | path :: paths' =>
      if path_exists w path then first_missing w paths' else Some path
  end.

(** [merge_databases(priority_db_path, fallback_db_path, output_db_path)]:
    how the run ends and the state it leaves. *)
Definition merge_databases (w : world)
    (priority_db_path fallback_db_path output_db_path : string) : exit * state :=
  let st := {| connections := []; output_db := sink w; stdout := [] |} in
  match first_missing w [priority_db_path; fallback_db_path] with
  | Some path => (SysExit 1, (print (FileNotFound path) st).1)
  | None =>
  match connect w priority_db_path with
  | Some e => (Uncaught e, st)
  | None =>
  let st := opened Priority st in
  match connect w fallback_db_path with
  | Some e => (Uncaught e, st)
  | None =>
  let st := opened Fallback st in
  match connect w output_db_path with
  | Some e => (Uncaught e, st)
  | None =>
  let st := opened Output st in
  match sqlite_master w with
  | Raise e => (Uncaught e, st)
  | Ok table_names =>
  let st := foldl (merge_one w) st table_names in
  let st := closed Output (closed Fallback (closed Priority st)) in
  (Returned, (print (MergeComplete output_db_path) st).1)
  end end end end end.

(** The tables a run announced, in order. *)
Definition attempted (out : list event) : list string :=
  omap (λ e, match e with MergingTable t => Some t | _ => None end) out.

(** ** Example databases *)

Definition mk_frame (cols : list string) (rs : list (list (string * value))) : DataFrame :=
  {| columns := cols; rows := list_to_map <$> rs |}.

(** [teams]: primary key [id]; both snapshots list the teams in the same,
    non-ascending, order. *)
Definition teams_info : list table_info_row :=
  [ {| ti_cid := 0; ti_name := "id"; ti_type := "INTEGER"; ti_notnull := 1;
       ti_dflt_value := None; ti_pk := 1 |};
    {| ti_cid := 1; ti_name := "name"; ti_type := "TEXT"; ti_notnull := 0;
       ti_dflt_value := None; ti_pk := 0 |} ].
Definition teams_p : DataFrame :=
  mk_frame ["id"; "name"]
    [ [("id", VInt 2046); ("name", VText "Bear Metal")];
      [("id", VInt 1425)] ].
Definition teams_f : DataFrame :=
  mk_frame ["id"; "name"]
    [ [("id", VInt 2046); ("name", VText "Bears")];
      [("id", VInt 1425); ("name", VText "Error Code Xero")] ].

(** [users]: the end-to-end scenario of the specification. *)
Definition users_p : DataFrame :=
  mk_frame ["id"; "name"; "email"]
    [ [("id", VInt 1); ("name", VText "Alice")] ].
Definition users_f : DataFrame :=
  mk_frame ["id"; "name"; "email"]
    [ [("id", VInt 2); ("name", VText "Bob"); ("email", VText "bob@x.com")];
      [("id", VInt 1); ("name", VText "Alice"); ("email", VText "alice@x.com")] ].

(** A snapshot of [users] without rows, and the merge of the two [teams]
    snapshots. *)
Definition users_none : DataFrame := mk_frame ["id"; "name"; "email"] [].
Definition teams_merged : DataFrame :=
  mk_frame ["id"; "name"]
    [ [("id", VInt 2046); ("name", VText "Bear Metal")];
      [("id", VInt 1425); ("name", VText "Error Code Xero")] ].


(** [tags]: a text key in one snapshot, an integer key in the other. *)
Definition tags_p : DataFrame :=
  mk_frame ["id"; "tag"] [ [("id", VText "a"); ("tag", VText "x")] ].
Definition tags_f : DataFrame :=
  mk_frame ["id"; "tag"] [ [("id", VInt 1); ("tag", VText "y")] ].

(** [pairs]: a table that has no column besides its key. *)
Definition pairs_p : DataFrame :=
  mk_frame ["id"] [ [("id", VInt 2)]; [("id", VInt 1)] ].
Definition pairs_f : DataFrame := mk_frame ["id"] [ [("id", VInt 1)] ].

(** [MATCHES] and [notes] declare no primary key. *)
Definition keyless_info : list table_info_row :=
  [ {| ti_cid := 0; ti_name := "key"; ti_type := "TEXT"; ti_notnull := 0;
       ti_dflt_value := None; ti_pk := 0 |};
    {| ti_cid := 1; ti_name := "team_key"; ti_type := "TEXT"; ti_notnull := 0;
       ti_dflt_value := None; ti_pk := 0 |};
    {| ti_cid := 2; ti_name := "score"; ti_type := "INTEGER"; ti_notnull := 0;
       ti_dflt_value := None; ti_pk := 0 |} ].
Definition matches_p : DataFrame :=
  mk_frame ["key"; "team_key"; "score"]
    [ [("key", VText "qm1"); ("team_key", VText "frc1425"); ("score", VInt 40)] ].
Definition matches_f : DataFrame :=
  mk_frame ["key"; "team_key"; "score"]
    [ [("key", VText "qm1"); ("team_key", VText "frc1425"); ("score", VInt 35)];
      [("key", VText "qm1"); ("team_key", VText "frc2046"); ("score", VInt 52)] ].
Definition matches_merged : DataFrame :=
  mk_frame ["key"; "team_key"; "score"]
    [ [("key", VText "qm1"); ("team_key", VText "frc1425"); ("score", VInt 40)];
      [("key", VText "qm1"); ("team_key", VText "frc2046"); ("score", VInt 52)] ].

(** [results] declares the composite primary key (key, team_key). *)
Definition results_info : list table_info_row :=
  [ {| ti_cid := 0; ti_name := "key"; ti_type := "TEXT"; ti_notnull := 1;
       ti_dflt_value := None; ti_pk := 1 |};
    {| ti_cid := 1; ti_name := "team_key"; ti_type := "TEXT"; ti_notnull := 1;
       ti_dflt_value := None; ti_pk := 2 |};
    {| ti_cid := 2; ti_name := "score"; ti_type := "INTEGER"; ti_notnull := 0;
       ti_dflt_value := None; ti_pk := 0 |} ].

(** [events] has columns (a, b) in the priority snapshot and (a, b, c) in
    the fallback snapshot; the output database already holds an older
    [events] table. *)
Definition events_p : DataFrame := mk_frame ["a"; "b"] [ [("a", VInt 1); ("b", VInt 2)] ].
Definition events_f : DataFrame :=
  mk_frame ["a"; "b"; "c"] [ [("a", VInt 1); ("b", VInt 2); ("c", VInt 3)] ].
Definition events_old : DataFrame := mk_frame ["a"] [ [("a", VInt 0)] ].

(** A priority snapshot with the tables above and [ghost], which the
    fallback snapshot lacks; "missing.db" is the one path that does not
    exist. *)
Definition scouting : world :=
  {| path_exists := λ path, bool_decide (path ≠ "missing.db");
     connect := λ _, None;
     sqlite_master := Ok ["teams"; "MATCHES"; "notes"; "events"; "ghost"];
     select_all := λ conn table,
       match conn with
       | Priority =>
           if bool_decide (table = "teams") then Ok teams_p
           else if bool_decide (table = "MATCHES") then Ok matches_p
           else if bool_decide (table = "notes") then Ok matches_p
           else if bool_decide (table = "events") then Ok events_p
           else if bool_decide (table = "ghost") then Ok teams_p
           else Raise (DatabaseError "no such table")
       | _ =>
           if bool_decide (table = "teams") then Ok teams_f
           else if bool_decide (table = "MATCHES") then Ok matches_f
           else if bool_decide (table = "notes") then Ok matches_f
           else if bool_decide (table = "events") then Ok events_f
           else Raise (DatabaseError "no such table")
       end;
     table_info := λ conn table,
       if bool_decide (table = "teams") then Ok teams_info
       else if bool_decide (table = "results") then Ok results_info
       else Ok keyless_info;
     to_sql_fault := λ _ _, None;
     sink := {[ "events" := events_old ]} |}.

(** The same files, except that the priority file is not a database: the
    query that lists its tables fails. *)
Definition corrupt_priority : world :=
  {| path_exists := path_exists scouting;
     connect := connect scouting;
     sqlite_master := Raise (DatabaseError "file is not a database");
     select_all := select_all scouting;
     table_info := table_info scouting;
     to_sql_fault := to_sql_fault scouting;
     sink := sink scouting |}.

(** The same sources, written to an output database that already holds a
    [teams] table: the write of [teams] drops that table and then fails,
    leaving no table of that name. *)
Definition interrupted : world :=
  {| path_exists := path_exists scouting;
     connect := connect scouting;
     sqlite_master := sqlite_master scouting;
     select_all := select_all scouting;
     table_info := table_info scouting;
     to_sql_fault := λ table _,
       if bool_decide (table = "teams")
       then Some (FaultAfter (OperationalError "disk I/O error") None)
       else None;
     sink := {[ "teams" := teams_f ]} |}.

(** ** Facts about one iteration of the loop *)

Ltac run_body :=
  unfold merge_one, merge_table, get_primary_keys;
  unfold mbind, mret, M_bind, M_ret, result_bind, result_ret, lift, continue, print, to_sql;
  cbn beta iota delta [fst snd connections output_db stdout].

Ltac body_cases :=
  repeat (first
    [ progress cbn beta iota delta [fst snd connections output_db stdout]
    | match goal with
      | |- context [match ?x with _ => _ end] =>
          lazymatch x with
          | context [match _ with _ => _ end] => fail
          | _ => destruct x eqn:?
          end
      end ]).

Lemma merge_one_connections w st t :
  connections (merge_one w st t) = connections st.
Proof. run_body. body_cases; reflexivity. Qed.

Lemma merge_one_output_other w st t t' :
  t' ≠ t → output_db (merge_one w st t) !! t' = output_db st !! t'.
Proof.
  intros Hne. run_body. body_cases; try reflexivity.
  all: first [ by rewrite lookup_insert_ne | by rewrite lookup_partial_alter_ne ].
Qed.

Lemma merge_one_stdout w st t :
  ∃ evs, stdout (merge_one w st t) = stdout st ++ MergingTable t :: evs
         ∧ attempted evs = [].
Proof.
  run_body. body_cases; rewrite <- ?app_assoc; simpl; eexists; split;
    try reflexivity; reflexivity.
Qed.

Lemma merge_table_signal w t st st' :
  (merge_table w t st).2 = (merge_table w t st').2.
Proof. run_body. body_cases; congruence. Qed.

Lemma merge_one_records w st t e :
  (merge_table w t st).2 = Raised e →
  ErrorMerging t e ∈ stdout (merge_one w st t).
Proof.
  intros He. unfold merge_one.
  rewrite (merge_table_signal w t st (print (MergingTable t) st).1) in He.
  destruct (merge_table w t (print (MergingTable t) st).1) as [st' s]; simpl in *.
  subst s. simpl. set_solver.
Qed.

Lemma attempted_app l1 l2 : attempted (l1 ++ l2) = attempted l1 ++ attempted l2.
Proof. apply omap_app. Qed.

Lemma loop_attempted w ts st :
  attempted (stdout (foldl (merge_one w) st ts)) = attempted (stdout st) ++ ts.
Proof.
  revert st. induction ts as [|t ts IH]; intros st; simpl.
  - by rewrite app_nil_r.
  - rewrite IH. destruct (merge_one_stdout w st t) as (evs & -> & Hevs).
    rewrite attempted_app. simpl. rewrite Hevs. by rewrite <- app_assoc.
Qed.

Lemma loop_connections w ts st :
  connections (foldl (merge_one w) st ts) = connections st.
Proof.
  revert st. induction ts as [|t ts IH]; intros st; simpl; [done|].
  by rewrite IH, merge_one_connections.
Qed.

Lemma loop_stdout_mono w ts st e :
  e ∈ stdout st → e ∈ stdout (foldl (merge_one w) st ts).
Proof.
  revert st. induction ts as [|t ts IH]; intros st He; simpl; [done|].
  apply IH. destruct (merge_one_stdout w st t) as (evs & -> & _). set_solver.
Qed.

Lemma loop_output_other w ts st t :
  t ∉ ts → output_db (foldl (merge_one w) st ts) !! t = output_db st !! t.
Proof.
  revert st. induction ts as [|t' ts IH]; intros st Hni; simpl; [done|].
  rewrite IH by set_solver. apply merge_one_output_other. set_solver.
Qed.

Lemma loop_records w ts st t e :
  t ∈ ts → (merge_table w t st).2 = Raised e →
  ErrorMerging t e ∈ stdout (foldl (merge_one w) st ts).
Proof.
  revert st. induction ts as [|t' ts IH]; intros st Hin He; [set_solver|].
  simpl. destruct (decide (t = t')) as [->|Hne].
  - apply loop_stdout_mono. by apply merge_one_records.
  - apply IH; [by apply elem_of_cons in Hin as [?|?]|].
    by rewrite (merge_table_signal w t _ st).
Qed.

(** ** SchemaInspector *)

Lemma primary_key_names_none fetched :
  Forall (λ r, ti_pk r = 0) fetched → primary_key_names fetched = [].
Proof.
  unfold primary_key_names. induction 1 as [|r l Hr _ IH]; [done|].
  rewrite filter_cons. destruct (decide (ti_pk r = 1)) as [H1|_]; [|done].
  rewrite Hr in H1. discriminate.
Qed.

(** C3: [get_primary_keys] compares the [pk] entry with 1, so for the
    composite primary key (key, team_key) it returns the first key column
    only, where the columns flagged as primary key are both. *)
Theorem get_primary_keys_composite :
  get_primary_keys scouting Priority "results" = Ok ["key"]
  ∧ declared_primary_keys results_info = ["key"; "team_key"]
  ∧ primary_key_names results_info ≠ declared_primary_keys results_info.
Proof. split; [reflexivity|]. split; [reflexivity|]. discriminate. Qed.

(** ** MergeOrchestrator *)

(** C6: when the priority path or the fallback path does not exist, the run
    stops with exit code 1 after printing the error for the first missing
    path: no connection has been opened, no table has been attempted and
    the output database is as it was. *)
Theorem missing_source_aborts w p f o :
  path_exists w p = false ∨ path_exists w f = false →
  ∃ path, (path = p ∨ path = f) ∧ path_exists w path = false
    ∧ merge_databases w p f o
      = (SysExit 1, {| connections := []; output_db := sink w;
                       stdout := [FileNotFound path] |})
    ∧ attempted (stdout (merge_databases w p f o).2) = [].
Proof.
  intros H. unfold merge_databases. simpl.
  destruct (path_exists w p) eqn:Hp.
  - destruct H as [H|H]; [discriminate|]. rewrite H.
    exists f. auto.
  - exists p. auto.
Qed.

Lemma missing_source_aborts_witness :
  ∃ path, (path = "priority.db" ∨ path = "missing.db")
    ∧ path_exists scouting path = false
    ∧ merge_databases scouting "priority.db" "missing.db" "out.db"
      = (SysExit 1, {| connections := []; output_db := sink scouting;
                       stdout := [FileNotFound path] |})
    ∧ attempted (stdout (merge_databases scouting "priority.db" "missing.db" "out.db").2) = [].
Proof. apply (missing_source_aborts scouting). right. reflexivity. Defined.

Lemma run_reaches_loop w p f o ts :
  first_missing w [p; f] = None →
  connect w p = None → connect w f = None → connect w o = None →
  sqlite_master w = Ok ts →
  merge_databases w p f o =
    (Returned,
     (print (MergeComplete o)
        (closed Output (closed Fallback (closed Priority
           (foldl (merge_one w)
              {| connections := [Priority; Fallback; Output];
                 output_db := sink w; stdout := [] |} ts))))).1).
Proof.
  intros Hm Hp Hf Ho Hts. unfold merge_databases.
  rewrite Hm, Hp, Hf, Ho, Hts. reflexivity.
Qed.

Lemma run_attempts w p f o ts :
  first_missing w [p; f] = None →
  connect w p = None → connect w f = None → connect w o = None →
  sqlite_master w = Ok ts →
  (merge_databases w p f o).1 = Returned
  ∧ attempted (stdout (merge_databases w p f o).2) = ts.
Proof.
  intros Hm Hp Hf Ho Hts.
  rewrite (run_reaches_loop w p f o ts) by done.
  split; [done|]. simpl.
  rewrite attempted_app, loop_attempted. simpl. by rewrite app_nil_r.
Qed.

(** C4: once the tables of the priority source are listed, the run
    announces every one of them exactly once and in order, whatever fails
    in between; an error raised by the statements for one table is printed
    for that table, and the run returns. *)
Theorem every_table_attempted_once w p f o ts :
  first_missing w [p; f] = None →
  connect w p = None → connect w f = None → connect w o = None →
  sqlite_master w = Ok ts →
  (merge_databases w p f o).1 = Returned
  ∧ attempted (stdout (merge_databases w p f o).2) = ts
  ∧ ∀ t e st, t ∈ ts → (merge_table w t st).2 = Raised e →
      ErrorMerging t e ∈ stdout (merge_databases w p f o).2.
Proof.
  intros Hm Hp Hf Ho Hts.
  rewrite (run_reaches_loop w p f o ts) by done.
  split; [done|]. simpl. split.
  - rewrite attempted_app, loop_attempted. simpl. by rewrite app_nil_r.
  - intros t e st Hin He. apply elem_of_app. left.
    apply (loop_records w ts _ t e Hin).
    by rewrite (merge_table_signal w t _ st).
Qed.

Lemma every_table_attempted_once_witness :
  (merge_databases scouting "priority.db" "fallback.db" "out.db").1 = Returned
  ∧ attempted (stdout (merge_databases scouting "priority.db" "fallback.db" "out.db").2)
    = ["teams"; "MATCHES"; "notes"; "events"; "ghost"]
  ∧ ∀ t e st, t ∈ ["teams"; "MATCHES"; "notes"; "events"; "ghost"] →
      (merge_table scouting t st).2 = Raised e →
      ErrorMerging t e
        ∈ stdout (merge_databases scouting "priority.db" "fallback.db" "out.db").2.
Proof.
  apply (every_table_attempted_once scouting "priority.db" "fallback.db" "out.db");
    reflexivity.
Defined.

(** C5: a run that ends by returning or by [sys.exit], per-table errors
    included, leaves no connection open. *)
Theorem connections_closed_on_return w p f o :
  (∀ e, (merge_databases w p f o).1 ≠ Uncaught e) →
  connections (merge_databases w p f o).2 = [].
Proof.
  unfold merge_databases. intros H.
  destruct (first_missing w [p; f]); [done|].
  destruct (connect w p); [by destruct (H e)|].
  destruct (connect w f); [by destruct (H e)|].
  destruct (connect w o); [by destruct (H e)|].
  destruct (sqlite_master w) as [ts|e]; [|by destruct (H e)].
  simpl. by rewrite loop_connections.
Qed.

Lemma connections_closed_on_return_witness :
  connections (merge_databases scouting "priority.db" "fallback.db" "out.db").2 = [].
Proof.
  apply (connections_closed_on_return scouting "priority.db" "fallback.db" "out.db").
  intros e. vm_compute. discriminate.
Defined.

(** C5, as stated, fails: when listing the tables of the priority source
    raises, the exception leaves [merge_databases] with all three
    connections still open. *)
Lemma connections_left_open :
  merge_databases corrupt_priority "priority.db" "fallback.db" "out.db"
  = (Uncaught (DatabaseError "file is not a database"),
     {| connections := [Priority; Fallback; Output];
        output_db := sink corrupt_priority; stdout := [] |})
  ∧ connections
      (merge_databases corrupt_priority "priority.db" "fallback.db" "out.db").2 ≠ [].
Proof. split; [reflexivity | discriminate]. Qed.

Lemma merge_one_mismatch w st t dfp dff :
  select_all w Priority t = Ok dfp →
  select_all w Fallback t = Ok dff →
  list_to_set (columns dfp) ≠@{gset string} list_to_set (columns dff) →
  merge_one w st t
  = {| connections := connections st; output_db := output_db st;
       stdout := stdout st ++ [MergingTable t; SchemaMismatch t] |}.
Proof.
  intros Hp Hf Hne. run_body. rewrite Hp, Hf. simpl.
  rewrite bool_decide_eq_true_2 by done. simpl.
  by rewrite <- app_assoc.
Qed.

Lemma loop_mismatch_untouched w ts st t dfp dff :
  select_all w Priority t = Ok dfp →
  select_all w Fallback t = Ok dff →
  list_to_set (columns dfp) ≠@{gset string} list_to_set (columns dff) →
  output_db (foldl (merge_one w) st ts) !! t = output_db st !! t.
Proof.
  intros Hp Hf Hne. revert st.
  induction ts as [|t' ts IH]; intros st; simpl; [done|].
  rewrite IH. destruct (decide (t = t')) as [<-|Hd].
  - by rewrite (merge_one_mismatch w st t dfp dff).
  - by apply merge_one_output_other.
Qed.

(** C7 (amended): a table whose two row sets differ in their column-name
    sets is skipped: its iteration prints the skip, raises nothing and
    writes nothing, the loop goes on through the remaining tables, and at
    the end of the run the output database holds under that name exactly
    what it held before the run. *)
Theorem schema_mismatch_skips w p f o ts t dfp dff :
  first_missing w [p; f] = None →
  connect w p = None → connect w f = None → connect w o = None →
  sqlite_master w = Ok ts → t ∈ ts →
  select_all w Priority t = Ok dfp →
  select_all w Fallback t = Ok dff →
  list_to_set (columns dfp) ≠@{gset string} list_to_set (columns dff) →
  (∀ st, merge_one w st t
         = {| connections := connections st; output_db := output_db st;
              stdout := stdout st ++ [MergingTable t; SchemaMismatch t] |})
  ∧ (merge_databases w p f o).1 = Returned
  ∧ attempted (stdout (merge_databases w p f o).2) = ts
  ∧ output_db (merge_databases w p f o).2 !! t = sink w !! t.
Proof.
  intros Hm Hcp Hcf Hco Hts Hin Hp Hf Hne.
  split; [intros st; by apply (merge_one_mismatch w st t dfp dff)|].
  destruct (run_attempts w p f o ts) as (H1 & H2); try done.
  split; [done|]. split; [done|].
  rewrite (run_reaches_loop w p f o ts) by done. simpl.
  by rewrite (loop_mismatch_untouched w ts _ t dfp dff).
Qed.

Lemma schema_mismatch_skips_witness :
  (∀ st, merge_one scouting st "events"
         = {| connections := connections st; output_db := output_db st;
              stdout := stdout st ++ [MergingTable "events"; SchemaMismatch "events"] |})
  ∧ (merge_databases scouting "priority.db" "fallback.db" "out.db").1 = Returned
  ∧ attempted (stdout (merge_databases scouting "priority.db" "fallback.db" "out.db").2)
    = ["teams"; "MATCHES"; "notes"; "events"; "ghost"]
  ∧ output_db (merge_databases scouting "priority.db" "fallback.db" "out.db").2 !! "events"
    = sink scouting !! "events".
Proof.
  apply (schema_mismatch_skips scouting "priority.db" "fallback.db" "out.db"
           ["teams"; "MATCHES"; "notes"; "events"; "ghost"] "events" events_p events_f);
    try reflexivity.
  - set_solver.
  - vm_compute. intros H. discriminate H.
Defined.

(** C7, as stated, fails: the columns of [events] differ between the two
    sources, yet after the run the output database has a table [events],
    the one it held before. *)
Lemma skipped_table_still_in_output :
  select_all scouting Priority "events" = Ok events_p
  ∧ select_all scouting Fallback "events" = Ok events_f
  ∧ list_to_set (columns events_p) ≠@{gset string} list_to_set (columns events_f)
  ∧ output_db (merge_databases scouting "priority.db" "fallback.db" "out.db").2 !! "events"
    = Some events_old.
Proof.
  split; [reflexivity|]. split; [reflexivity|]. split.
  - vm_compute. intros H. discriminate H.
  - vm_compute. reflexivity.
Qed.

Lemma merge_table_keyless w st t dfp dff info :
  select_all w Priority t = Ok dfp →
  select_all w Fallback t = Ok dff →
  list_to_set (columns dfp) =@{gset string} list_to_set (columns dff) →
  table_info w Priority t = Ok info →
  Forall (λ r, ti_pk r = 0) info →
  merge_table w t st
  = (if bool_decide (lower t = "matches")
     then print (FallbackKeys t ["key"; "team_key"]);;
          df_merged ← lift (merge_tables_by_key dfp dff ["key"; "team_key"]);
          to_sql w t df_merged;;
          print (Merged (length (rows df_merged)) t)
     else print (NoPrimaryKey t);; continue) st.
Proof.
  intros Hp Hf Heq Hinfo Hpk. run_body. rewrite Hp, Hf, Hinfo. simpl.
  rewrite bool_decide_eq_false_2 by (intros H; by apply H).
  rewrite (primary_key_names_none info Hpk). simpl.
  destruct (bool_decide (lower t = "matches")); reflexivity.
Qed.






Lemma keyless_info_no_pk : Forall (λ r, ti_pk r = 0) keyless_info.
Proof. repeat constructor. Qed.

Lemma matches_merged_by_key :
  merge_tables_by_key matches_p matches_f ["key"; "team_key"] = Ok matches_merged.
Proof. vm_compute. reflexivity. Qed.


(** C10: the name is compared after lowering, so every spelling that
    lowers to "matches" takes the special case: with no declared primary
    key the row sets are merged on ["key"; "team_key"], and the merged
    frame is written under the table's own name. *)
Theorem matches_name_any_case w st t dfp dff info m :
  lower t = "matches" →
  select_all w Priority t = Ok dfp →
  select_all w Fallback t = Ok dff →
  list_to_set (columns dfp) =@{gset string} list_to_set (columns dff) →
  table_info w Priority t = Ok info →
  Forall (λ r, ti_pk r = 0) info →
  merge_tables_by_key dfp dff ["key"; "team_key"] = Ok m →
  to_sql_fault w t m = None →
  merge_one w st t
  = {| connections := connections st;
       output_db := <[t := m]> (output_db st);
       stdout := stdout st ++ [MergingTable t; FallbackKeys t ["key"; "team_key"];
                               Merged (length (rows m)) t] |}.
Proof.
  intros Hname Hp Hf Heq Hinfo Hpk Hm Hw. unfold merge_one.
  rewrite (merge_table_keyless w _ t dfp dff info) by done.
  rewrite bool_decide_eq_true_2 by done.
  unfold mbind, M_bind, print, lift, to_sql. simpl. rewrite Hm, Hw. simpl.
  by rewrite <- !app_assoc.
Qed.

Lemma matches_name_any_case_witness :
  lower "MATCHES" = "matches"
  ∧ merge_one scouting {| connections := []; output_db := ∅; stdout := [] |} "MATCHES"
    = {| connections := [];
         output_db := <["MATCHES" := matches_merged]> ∅;
         stdout := [] ++ [MergingTable "MATCHES";
                          FallbackKeys "MATCHES" ["key"; "team_key"];
                          Merged (length (rows matches_merged)) "MATCHES"] |}.
Proof.
  split; [reflexivity|].
  apply (matches_name_any_case scouting
           {| connections := []; output_db := ∅; stdout := [] |}
           "MATCHES" matches_p matches_f keyless_info matches_merged);
    first [reflexivity | apply keyless_info_no_pk | apply matches_merged_by_key].
Defined.

Example lower_Matches : lower "Matches" = "matches" ∧ lower "mAtChEs" = "matches".
Proof. split; reflexivity. Qed.

(** ** TableMerger: rows *)

Lemma lookup_drop_columns keys (r : gmap string value) c :
  drop_columns keys r !! c = if decide (c ∈ keys) then None else r !! c.
Proof.
  induction keys as [|k keys IH].
  - by rewrite decide_False by set_solver.
  - change (drop_columns (k :: keys) r) with (delete k (drop_columns keys r)).
    destruct (decide (k = c)) as [->|Hne].
    + rewrite lookup_delete_eq. by rewrite decide_True by set_solver.
    + rewrite lookup_delete_ne by done. rewrite IH.
      destruct (decide (c ∈ keys)).
      * by rewrite decide_True by (by right).
      * rewrite decide_False; [done|]. rewrite elem_of_cons. by intros [?|?].
Qed.

Lemma lookup_restore_key levels (r r0 : gmap string value) c :
  restore_key levels (row_key levels r) r0 !! c
  = if decide (c ∈ levels) then r !! c else r0 !! c.
Proof.
  induction levels as [|n levels IH].
  - by rewrite decide_False by set_solver.
  - change (restore_key (n :: levels) (row_key (n :: levels) r) r0)
      with (partial_alter (λ _, r !! n) n
              (restore_key levels (row_key levels r) r0)).
    destruct (decide (n = c)) as [->|Hne].
    + rewrite lookup_partial_alter_eq. by rewrite decide_True by set_solver.
    + rewrite lookup_partial_alter_ne by done. rewrite IH.
      destruct (decide (c ∈ levels)).
      * by rewrite decide_True by (by right).
      * rewrite decide_False; [done|]. rewrite elem_of_cons. by intros [?|?].
Qed.

Lemma restore_drop keys (r : gmap string value) :
  restore_key keys (row_key keys r) (drop_columns keys r) = r.
Proof.
  apply map_eq. intros c. rewrite lookup_restore_key, lookup_drop_columns.
  by destruct (decide (c ∈ keys)).
Qed.



Lemma row_key_restore keys (r r0 : gmap string value) :
  row_key keys (restore_key keys (row_key keys r) r0) = row_key keys r.
Proof.
  unfold row_key at 1 3. apply list_fmap_ext. intros i c Hc.
  rewrite lookup_restore_key. rewrite decide_True; [done|].
  by apply list_elem_of_lookup_2 in Hc.
Qed.


(** ** TableMerger: alignment of two indexes *)

Section align.
Implicit Types (E : list (list (option value) * gmap string value)).
Implicit Types (k : list (option value)) (x y : gmap string value).

Lemma elem_of_rows_at k x E : x ∈ rows_at k E ↔ (k, x) ∈ E.
Proof.
  unfold rows_at. rewrite list_elem_of_fmap. split.
  - intros ([k' x'] & -> & Hin). apply list_elem_of_filter in Hin as [Hk Hin].
    simpl in *. by subst.
  - intros Hin. exists (k, x). split; [done|].
    apply list_elem_of_filter. by split.
Qed.

Lemma rows_at_nil k E : rows_at k E = [] ↔ k ∉ E.*1.
Proof.
  split.
  - intros Hnil Hin. apply list_elem_of_fmap in Hin as ([k' x] & Hk & Hin).
    simpl in Hk. subst k'.
    apply (elem_of_rows_at k x E) in Hin. rewrite Hnil in Hin.
    by apply elem_of_nil in Hin.
  - intros Hni. destruct (rows_at k E) as [|x l] eqn:Heq; [done|].
    exfalso. apply Hni. apply list_elem_of_fmap. exists (k, x). split; [done|].
    apply elem_of_rows_at. rewrite Heq. by left.
Qed.

Lemma elem_of_reindexed x (l : list (gmap string value)) :
  x ∈ reindexed l ↔ x ∈ l ∨ (l = [] ∧ x = ∅).
Proof.
  destruct l as [|a l]; simpl.
  - rewrite list_elem_of_singleton. split; [by right|]. intros [H|[_ H]]; [|done].
    by apply elem_of_nil in H.
  - split; [by left|]. by intros [H|[H _]].
Qed.

Lemma reindexed_length (l : list (gmap string value)) :
  (length l ≤ length (reindexed l) ∧ 1 ≤ length (reindexed l))%nat.
Proof. destruct l; simpl; lia. Qed.

Lemma elem_of_join_labels (I1 I2 : list (list (option value))) k :
  k ∈ join_labels I1 I2 ↔ k ∈ I1 ∨ k ∈ I2.
Proof.
  unfold join_labels. destruct (sorts I1 I2).
  - by rewrite merge_sort_Permutation, elem_of_remove_dups, elem_of_app.
  - rewrite elem_of_app, !elem_of_remove_dups, list_elem_of_filter.
    destruct (decide (k ∈ I1)); tauto.
Qed.

Lemma NoDup_join_labels (I1 I2 : list (list (option value))) :
  NoDup (join_labels I1 I2).
Proof.
  unfold join_labels. destruct (sorts I1 I2).
  - rewrite merge_sort_Permutation. apply NoDup_remove_dups.
  - apply NoDup_app. split; [apply NoDup_remove_dups|].
    split; [|apply NoDup_remove_dups].
    intros k Hk1 Hk2. rewrite elem_of_remove_dups in Hk1.
    rewrite elem_of_remove_dups, list_elem_of_filter in Hk2.
    destruct Hk2 as [Hk2 _]. by apply Hk2.
Qed.

Lemma elem_of_join_outer k x y E1 E2 :
  (k, (x, y)) ∈ join_outer E1 E2 ↔
  (k ∈ E1.*1 ∨ k ∈ E2.*1)
  ∧ x ∈ reindexed (rows_at k E1) ∧ y ∈ reindexed (rows_at k E2).
Proof.
  unfold join_outer. rewrite list_elem_of_bind. split.
  - intros (k' & Hin & Hk').
    rewrite elem_of_join_labels in Hk'.
    apply list_elem_of_bind in Hin as (x' & Hin & Hx').
    apply list_elem_of_bind in Hin as (y' & Hin & Hy').
    apply list_elem_of_singleton in Hin. by simplify_eq.
  - intros (Hk & Hx & Hy). exists k. split.
    + apply list_elem_of_bind. exists x. split; [|done].
      apply list_elem_of_bind. exists y. split; [|done].
      by apply list_elem_of_singleton.
    + by rewrite elem_of_join_labels.
Qed.

Lemma elem_of_zipped k x y E1 E2 :
  E1.*1 = E2.*1 →
  (k, (x, y)) ∈ zip_with (λ e1 e2, (e1.1, (e1.2, e2.2))) E1 E2 →
  (k, x) ∈ E1 ∧ (k, y) ∈ E2.
Proof.
  intros Heq Hin. apply elem_of_lookup_zip_with in Hin
    as (i & [k1 x1] & [k2 y2] & Hkxy & H1 & H2).
  simpl in Hkxy. simplify_eq.
  assert ((E1.*1) !! i = (E2.*1) !! i) as Hi by (by rewrite Heq).
  rewrite !list_lookup_fmap, H1, H2 in Hi. simpl in Hi. simplify_eq.
  split; by eapply list_elem_of_lookup_2.
Qed.

Lemma fst_zipped E1 E2 :
  E1.*1 = E2.*1 →
  (zip_with (λ e1 e2, (e1.1, (e1.2, e2.2))) E1 E2).*1 = E1.*1.
Proof.
  revert E2. induction E1 as [|[k1 x1] E1 IH]; intros [|[k2 y2] E2] Heq;
    simpl in *; try done.
  injection Heq as _ Heq. f_equal. by apply IH.
Qed.

Lemma length_zipped E1 E2 :
  E1.*1 = E2.*1 →
  length (zip_with (λ e1 e2, (e1.1, (e1.2, e2.2))) E1 E2) = length E1.
Proof.
  intros Heq. rewrite <- (length_fmap fst), fst_zipped by done.
  by rewrite length_fmap.
Qed.

(** What alignment pairs up: a row of each side under the same label, or
    a row of missing values where a side lacks the label. *)
Lemma align_sound E1 E2 k x y :
  (k, (x, y)) ∈ align E1 E2 →
  ((k, x) ∈ E1 ∨ ((k ∉ E1.*1) ∧ x = ∅))
  ∧ ((k, y) ∈ E2 ∨ ((k ∉ E2.*1) ∧ y = ∅))
  ∧ (k ∈ E1.*1 ∨ k ∈ E2.*1).
Proof.
  unfold align. destruct (decide (E1.*1 = E2.*1)) as [Heq|Hne]; intros Hin.
  - apply elem_of_zipped in Hin as [H1 H2]; [|done].
    split; [by left|]. split; [by left|].
    left. apply list_elem_of_fmap. by exists (k, x).
  - apply elem_of_join_outer in Hin as (Hk & Hx & Hy).
    apply elem_of_reindexed in Hx. apply elem_of_reindexed in Hy.
    rewrite !elem_of_rows_at, !rows_at_nil in *. done.
Qed.

Lemma align_index E1 E2 k :
  k ∈ (align E1 E2).*1 ↔ k ∈ E1.*1 ∨ k ∈ E2.*1.
Proof.
  unfold align. destruct (decide (E1.*1 = E2.*1)) as [Heq|Hne].
  - rewrite fst_zipped by done. rewrite <- Heq. tauto.
  - split.
    + intros Hin. apply list_elem_of_fmap in Hin as ([k' [x y]] & -> & Hin).
      by apply elem_of_join_outer in Hin as (Hk & _).
    + intros Hk.
      assert (∃ x, x ∈ reindexed (rows_at k E1)) as [x Hx].
      { destruct (rows_at k E1) as [|a l]; eexists; simpl; by left. }
      assert (∃ y, y ∈ reindexed (rows_at k E2)) as [y Hy].
      { destruct (rows_at k E2) as [|a l]; eexists; simpl; by left. }
      apply list_elem_of_fmap. exists (k, (x, y)). split; [done|].
      by apply elem_of_join_outer.
Qed.
End align.

(** ** TableMerger: counting the aligned rows *)

Section counting.
Implicit Types (E : list (list (option value) * gmap string value)).
Implicit Types (k : list (option value)) (L : list (list (option value))).

Lemma join_outer_paired E1 E2 :
  join_outer E1 E2
  = join_labels (E1.*1) (E2.*1) ≫= λ k, paired k E1 E2.
Proof. reflexivity. Qed.

Lemma length_pairs {A B C} (g : A → B → C) (l1 : list A) (l2 : list B) :
  length (x ← l1; y ← l2; [g x y]) = (length l1 * length l2)%nat.
Proof.
  induction l1 as [|a l1 IH]; [done|].
  rewrite bind_cons, length_app, IH. simpl. f_equal.
  clear. induction l2 as [|b l2 IH]; [done|].
  rewrite bind_cons, length_app, IH. done.
Qed.

Lemma length_paired k E1 E2 :
  (length (rows_at k E1) ≤ length (paired k E1 E2)
   ∧ 1 ≤ length (paired k E1 E2))%nat.
Proof.
  unfold paired. rewrite length_pairs.
  pose proof (reindexed_length (rows_at k E1)) as [H1 H2].
  pose proof (reindexed_length (rows_at k E2)) as [H3 H4].
  nia.
Qed.

Lemma length_filter_key k L E :
  k ∉ L →
  length (filter (λ e, e.1 ∈ k :: L) E)
  = (length (rows_at k E) + length (filter (λ e, e.1 ∈ L) E))%nat.
Proof.
  intros Hni. unfold rows_at. rewrite length_fmap.
  induction E as [|[k' x] E IH]; [done|].
  rewrite !filter_cons. simpl.
  destruct (decide (k' = k)) as [->|Hne].
  - rewrite decide_True by (by left). rewrite decide_False by done.
    simpl. by rewrite IH.
  - destruct (decide (k' ∈ L)) as [Hin|Hnin].
    + rewrite decide_True by (by right). simpl. rewrite IH. lia.
    + rewrite decide_False; [done|].
      rewrite elem_of_cons. tauto.
Qed.

(** The outer join has at least one row for every row of the left side
    and one for every label the left side lacks. *)
Lemma length_join_lower L E1 E2 :
  NoDup L →
  (length (filter (λ e, e.1 ∈ L) E1) + length (filter (λ k, k ∉ E1.*1) L)
   ≤ length (L ≫= λ k, paired k E1 E2))%nat.
Proof.
  induction 1 as [|k L Hni HL IH].
  - simpl.
    assert (filter (λ e : list (option value) * gmap string value, e.1 ∈ [])
              E1 = []) as ->; [|done].
    induction E1 as [|e E1 IHE]; [done|].
    rewrite filter_cons, decide_False; [done|]. apply not_elem_of_nil.
  - rewrite bind_cons, length_app, length_filter_key by done.
    pose proof (length_paired k E1 E2) as [H1 H2].
    rewrite filter_cons. destruct (decide (k ∉ E1.*1)) as [Hk|Hk].
    + apply rows_at_nil in Hk. rewrite Hk in *. simpl in *. lia.
    + lia.
Qed.

Lemma filter_all_length {A} (P : A → Prop) `{!∀ a, Decision (P a)} (l : list A) :
  Forall P l → length (filter P l) = length l.
Proof.
  induction 1 as [|a l Ha _ IH]; [done|].
  rewrite filter_cons, decide_True by done. simpl. by rewrite IH.
Qed.

(** If aligning does not lengthen the left side, every label of the
    right side is a label of the left side. *)
Lemma align_same_length E1 E2 k :
  length (align E1 E2) = length E1 → k ∈ E2.*1 → k ∈ E1.*1.
Proof.
  unfold align. destruct (decide (E1.*1 = E2.*1)) as [Heq|Hne].
  - intros _. by rewrite Heq.
  - rewrite join_outer_paired. intros Hlen Hk.
    destruct (decide (k ∈ E1.*1)) as [|Hni]; [done|]. exfalso.
    set (L := join_labels (E1.*1) (E2.*1)) in *.
    assert (∀ k', k' ∈ L ↔ k' ∈ E1.*1 ∨ k' ∈ E2.*1) as HL.
    { intros k'. unfold L. apply elem_of_join_labels. }
    assert (NoDup L) as Hnd by apply NoDup_join_labels.
    pose proof (length_join_lower L E1 E2 Hnd) as Hlow.
    rewrite filter_all_length in Hlow.
    2:{ apply Forall_forall. intros e He. apply HL. left.
        apply list_elem_of_fmap. by exists e. }
    assert (k ∈ filter (λ k, k ∉ E1.*1) L) as Hkf.
    { apply list_elem_of_filter. split; [done|]. apply HL. by right. }
    destruct (filter (λ k, k ∉ E1.*1) L); [by apply elem_of_nil in Hkf|].
    simpl in Hlow. lia.
Qed.

(** With unique labels on both sides the outer join has one row per
    label. *)
Lemma rows_at_unique k E :
  NoDup E.*1 → (length (rows_at k E) ≤ 1)%nat.
Proof.
  unfold rows_at. rewrite length_fmap.
  induction E as [|[k' x] E IH]; intros Hnd; [simpl; lia|].
  simpl in Hnd. apply NoDup_cons in Hnd as [Hni Hnd].
  rewrite filter_cons. simpl. destruct (decide (k' = k)) as [->|Hne].
  - apply rows_at_nil in Hni. unfold rows_at in Hni.
    apply fmap_nil_inv in Hni. rewrite Hni. simpl. lia.
  - by apply IH.
Qed.

Lemma paired_unique k E1 E2 :
  NoDup E1.*1 → NoDup E2.*1 → ∃ x y, paired k E1 E2 = [(k, (x, y))].
Proof.
  intros H1 H2. unfold paired.
  pose proof (rows_at_unique k E1 H1). pose proof (rows_at_unique k E2 H2).
  destruct (rows_at k E1) as [|x [|??]], (rows_at k E2) as [|y [|??]];
    simpl in *; try lia; by eexists _, _.
Qed.

Lemma join_outer_index_unique E1 E2 :
  NoDup E1.*1 → NoDup E2.*1 →
  (join_outer E1 E2).*1 = join_labels (E1.*1) (E2.*1).
Proof.
  intros H1 H2. rewrite join_outer_paired.
  induction (join_labels (E1.*1) (E2.*1)) as [|k L IH]; [done|].
  rewrite bind_cons, fmap_app, IH.
  destruct (paired_unique k E1 E2 H1 H2) as (x & y & ->). done.
Qed.

Lemma align_index_unique E1 E2 :
  NoDup E1.*1 → NoDup E2.*1 →
  (align E1 E2).*1
  = if decide (E1.*1 = E2.*1) then E1.*1 else join_labels (E1.*1) (E2.*1).
Proof.
  intros H1 H2. unfold align. destruct (decide (E1.*1 = E2.*1)).
  - by apply fst_zipped.
  - by apply join_outer_index_unique.
Qed.
End counting.

(** ** TableMerger: [combine_first] *)

Lemma union_columns_nil c1 c2 : union_columns c1 c2 = [] → c1 = [] ∧ c2 = [].
Proof.
  unfold union_columns. destruct (decide (c1 = c2)) as [->|_]; [done|].
  intros Hnil.
  assert (∀ c, c ∈ c1 ++ c2 → False) as Hno.
  { intros c Hc. apply elem_of_remove_dups in Hc.
    rewrite <- (merge_sort_Permutation string_le) in Hc. rewrite Hnil in Hc.
    by apply elem_of_nil in Hc. }
  destruct c1 as [|a c1]; [destruct c2 as [|b c2]; [done|]|].
  - exfalso. apply (Hno b). simpl. by left.
  - exfalso. apply (Hno a). simpl. by left.
Qed.

Lemma elem_of_union_columns c c1 c2 :
  c ∈ union_columns c1 c2 → c ∈ c1 ∨ c ∈ c2.
Proof.
  unfold union_columns. destruct (decide (c1 = c2)); [by left|].
  rewrite merge_sort_Permutation, elem_of_remove_dups, elem_of_app. done.
Qed.

(** *** Casts *)

Lemma lookup_convert f g (x : gmap string value) c :
  convert f g x !! c = (λ v, if f c then g v else v) <$> x !! c.
Proof. unfold convert. rewrite map_lookup_imap. by destruct (x !! c). Qed.

Lemma convert_none f g (x : gmap string value) :
  (∀ c, f c = false) → convert f g x = x.
Proof.
  intros Hf. apply map_eq. intros c. rewrite lookup_convert, Hf.
  by destruct (x !! c).
Qed.

Lemma gentle_to_float64 : gentle to_float64.
Proof. intros [z|s] Hv; [|done]. simpl in *. destruct Hv as [-> _]. done. Qed.

Lemma gentle_to_int64 : gentle to_int64.
Proof.
  intros [z|s] Hv; [|done]. simpl in *. destruct Hv as [_ Hz].
  destruct (Z.leb_spec (2 ^ 63) z); [lia|done].
Qed.

Lemma gentle_cast (b1 b2 : bool) :
  gentle (λ v, (if b2 then to_int64 else id) ((if b1 then to_float64 else id) v)).
Proof.
  intros v Hv. destruct b1, b2; simpl;
    rewrite ?(gentle_to_float64 v Hv), ?(gentle_to_int64 v Hv); done.
Qed.

Lemma overlaid_convert px py back (x y : gmap string value) :
  overlaid x y
    (convert back to_int64 (convert px to_float64 x ∪ convert py to_float64 y)).
Proof.
  intros c.
  exists (λ v, (if back c then to_int64 else id) ((if px c then to_float64 else id) v)),
         (λ v, (if back c then to_int64 else id) ((if py c then to_float64 else id) v)).
  split; [apply gentle_cast|]. split; [apply gentle_cast|].
  rewrite lookup_convert, lookup_union, !lookup_convert.
  destruct (x !! c), (y !! c); simpl; destruct (back c), (px c), (py c); done.
Qed.


Lemma overlaid_is_Some (x y z : gmap string value) c :
  overlaid x y z → is_Some (z !! c) ↔ is_Some (x !! c) ∨ is_Some (y !! c).
Proof.
  intros Hz. destruct (Hz c) as (g1 & g2 & _ & _ & ->).
  destruct (x !! c), (y !! c); simpl; split; eauto;
    intros [[? ?]|[? ?]]; done.
Qed.

Lemma overlaid_kept (x y z : gmap string value) c v :
  overlaid x y z → x !! c = Some v → exact v → z !! c = Some v.
Proof.
  intros Hz Hx Hv. destruct (Hz c) as (g1 & g2 & Hg1 & _ & ->).
  rewrite Hx. by rewrite Hg1.
Qed.

Lemma combined_sound self other al k z :
  (k, z) ∈ combined self other al → ∃ x y, (k, (x, y)) ∈ al ∧ overlaid x y z.
Proof.
  unfold combined. intros Hin.
  apply list_elem_of_fmap in Hin as ([k' [x y]] & Heq & Hin).
  simpl in Heq. injection Heq as <- ->.
  exists x, y. split; [done|]. apply overlaid_convert.
Qed.

Lemma combined_complete self other al k x y :
  (k, (x, y)) ∈ al → ∃ z, (k, z) ∈ combined self other al ∧ overlaid x y z.
Proof.
  intros Hin. eexists. split.
  - unfold combined. apply list_elem_of_fmap. by exists (k, (x, y)).
  - apply overlaid_convert.
Qed.

Lemma combined_index self other al : (combined self other al).*1 = al.*1.
Proof. unfold combined. by rewrite <- list_fmap_compose. Qed.

(** *** The three ways [frame_combine] ends *)

Lemma frame_combine_cases self other :
  let al := align (entries self) (entries other) in
  (frame_combine self other = self
   ∧ (union_columns (icolumns self) (icolumns other) = [] ∨ al = [])
   ∧ length al = length (entries self))
  ∨ (frame_combine self other
     = {| names := names other;
          icolumns := union_columns (icolumns self) (icolumns other);
          entries := (λ a, (a.1, a.2.2)) <$> al |}
     ∧ (icolumns self = [] ∨ entries self = []))
  ∨ frame_combine self other
    = {| names := names self;
         icolumns := union_columns (icolumns self) (icolumns other);
         entries := combined self other al |}.
Proof.
  intros al. unfold frame_combine. fold al. unfold frame_empty. simpl.
  rewrite !length_fmap.
  destruct (bool_decide (union_columns (icolumns self) (icolumns other) = [])) eqn:Hc;
  destruct (bool_decide ((λ a : list (option value) * (gmap string value * gmap string value),
                            (a.1, a.2.2)) <$> al = [])) eqn:Ha;
  destruct (bool_decide (length al = length (entries self))) eqn:Hl;
  destruct (bool_decide (icolumns self = [])) eqn:Hs;
  destruct (bool_decide (entries self = [])) eqn:He;
  destruct (bool_decide (length al = length (entries other))) eqn:Ho;
  simpl;
  repeat match goal with
         | H : bool_decide _ = true |- _ => apply bool_decide_eq_true in H
         | H : bool_decide _ = false |- _ => apply bool_decide_eq_false in H
         | H : _ <$> _ = [] |- _ => apply fmap_nil_inv in H
         end;
  first [ by left; auto | by right; left; auto | by right; right ].
Qed.

Lemma combine_first_names self other :
  names self = names other → names (combine_first self other) = names self.
Proof.
  intros Hn. unfold combine_first. destruct (bool_decide _); [done|].
  destruct (frame_combine_cases self other) as [(-> & _)|[(-> & _)| ->]]; done.
Qed.

Lemma combine_first_icolumns self other c :
  c ∈ icolumns (combine_first self other) → c ∈ icolumns self ∨ c ∈ icolumns other.
Proof.
  unfold combine_first. destruct (bool_decide _); simpl.
  - rewrite elem_of_app, merge_sort_Permutation, list_elem_of_filter,
      elem_of_remove_dups. tauto.
  - destruct (frame_combine_cases self other) as [(-> & _)|[(-> & _)| ->]];
      simpl; [by left|apply elem_of_union_columns..].
Qed.

Lemma elem_of_index k x (E : list (list (option value) * gmap string value)) :
  (k, x) ∈ E → k ∈ E.*1.
Proof. intros H. apply list_elem_of_fmap. by exists (k, x). Qed.

Lemma overlaid_alone_l (x : gmap string value) : overlaid x ∅ x.
Proof.
  intros c. exists id, id. split; [done|]. split; [done|].
  rewrite lookup_empty. by destruct (x !! c).
Qed.

Lemma overlaid_alone_r (y : gmap string value) : overlaid ∅ y y.
Proof.
  intros c. exists id, id. split; [done|]. split; [done|].
  rewrite lookup_empty. by destruct (y !! c).
Qed.

(** Every row of the result comes from a priority row overlaid on a
    fallback row with the same label, or from a row whose label the other
    side lacks. *)
Lemma combine_first_sound self other k z :
  tidy self → tidy other →
  (k, z) ∈ entries (combine_first self other) →
  (∃ x y, (k, x) ∈ entries self ∧ (k, y) ∈ entries other ∧ overlaid x y z)
  ∨ ((k ∉ index other) ∧ ∃ x, (k, x) ∈ entries self ∧ overlaid x ∅ z)
  ∨ ((k ∉ index self) ∧ ∃ y, (k, y) ∈ entries other ∧ overlaid ∅ y z).
Proof.
  intros Hts Hto. unfold combine_first, index.
  destruct (bool_decide (entries other = [])) eqn:Hoe.
  { apply bool_decide_eq_true in Hoe. simpl. intros Hin. right. left.
    split; [rewrite Hoe; apply not_elem_of_nil|].
    exists z. split; [done|apply overlaid_alone_l]. }
  destruct (frame_combine_cases self other) as [(-> & Hemp & Hlen)|[(-> & Hemp)| ->]];
    simpl.
  - intros Hin. destruct (decide (k ∈ (entries other).*1)) as [Hk|Hk].
    2:{ right. left. split; [done|]. exists z. split; [done|apply overlaid_alone_l]. }
    left. apply list_elem_of_fmap in Hk as ([k' y] & Hk & Hy). simpl in Hk. subst k'.
    destruct Hemp as [Hcols|Hal].
    + apply union_columns_nil in Hcols as [Hc1 Hc2].
      pose proof (Hts Hc1 _ Hin) as Hz. pose proof (Hto Hc2 _ Hy) as Hy'.
      simpl in *. subst. exists ∅, ∅. split; [done|]. split; [done|].
      apply overlaid_alone_l.
    + exfalso. assert (k ∈ (align (entries self) (entries other)).*1) as Hk.
      { apply align_index. left. by eapply elem_of_index. }
      rewrite Hal in Hk. by apply elem_of_nil in Hk.
  - intros Hin. apply list_elem_of_fmap in Hin as ([k' [x z']] & Heq & Hin).
    simpl in Heq. injection Heq as <- <-.
    apply align_sound in Hin as ([Hx|[Hx ->]] & [Hy|[Hy Hz]] & Hk).
    + left. exists x, z. split; [done|]. split; [done|].
      destruct Hemp as [Hc|He]; [|rewrite He in Hx; by apply elem_of_nil in Hx].
      pose proof (Hts Hc _ Hx) as Hx'. simpl in Hx'. subst x.
      apply overlaid_alone_r.
    + right. left. split; [done|]. exists x. split; [done|].
      destruct Hemp as [Hc|He]; [|rewrite He in Hx; by apply elem_of_nil in Hx].
      pose proof (Hts Hc _ Hx) as Hx'. simpl in Hx'. subst.
      apply overlaid_alone_l.
    + right. right. split; [done|]. exists z. split; [done|apply overlaid_alone_r].
    + tauto.
  - intros Hin. apply combined_sound in Hin as (x & y & Hin & Hz).
    apply align_sound in Hin as ([Hx|[Hx ->]] & [Hy|[Hy ->]] & Hk).
    + left. by exists x, y.
    + right. left. split; [done|]. by exists x.
    + right. right. split; [done|]. by exists y.
    + tauto.
Qed.

(** The labels of the result: those of [self] when [combine_first] hands
    [self] back, in which case [other] has no further label, and those of
    the alignment otherwise. *)
Lemma combine_first_index_cases self other :
  (index (combine_first self other) = index self
   ∧ ∀ k, k ∈ index other → k ∈ index self)
  ∨ (entries other ≠ []
     ∧ index (combine_first self other) = (align (entries self) (entries other)).*1).
Proof.
  unfold combine_first, index.
  destruct (bool_decide (entries other = [])) eqn:Hoe.
  { apply bool_decide_eq_true in Hoe. left. split; [done|].
    intros k. rewrite Hoe. simpl. intros H. by apply elem_of_nil in H. }
  apply bool_decide_eq_false in Hoe.
  destruct (frame_combine_cases self other) as [(-> & Hemp & Hlen)|[(-> & Hemp)| ->]];
    simpl.
  - left. split; [done|]. intros k. by apply align_same_length.
  - right. split; [done|]. rewrite <- list_fmap_compose. done.
  - right. split; [done|]. apply combined_index.
Qed.

Lemma combine_first_index self other k :
  k ∈ index (combine_first self other) ↔ k ∈ index self ∨ k ∈ index other.
Proof.
  destruct (combine_first_index_cases self other) as [[-> Hsub]|[_ ->]].
  - split; [by left|]. intros [?|?]; auto.
  - apply align_index.
Qed.

(** ** TableMerger: [merge_tables_by_key] *)

Lemma set_index_ok df keys :
  keys ≠ [] → (∀ c, c ∈ keys → c ∈ columns df) →
  set_index df keys = Ok (indexed df keys).
Proof.
  intros Hne Hsub. unfold set_index.
  assert (filter (λ c, c ∉ columns df) keys = []) as ->.
  { clear Hne. induction keys as [|k keys IH]; [done|].
    rewrite filter_cons, decide_False.
    - apply IH. intros c Hc. apply Hsub. by right.
    - intros Hk. apply Hk, Hsub. by left. }
  by destruct keys.
Qed.

Lemma index_indexed df keys : index (indexed df keys) = keys_of keys df.
Proof. unfold index, indexed, keys_of. simpl. by rewrite <- list_fmap_compose. Qed.

Lemma elem_of_indexed k x df keys :
  (k, x) ∈ entries (indexed df keys) ↔
  ∃ r, r ∈ rows df ∧ k = row_key keys r ∧ x = drop_columns keys r.
Proof.
  unfold indexed. simpl. rewrite list_elem_of_fmap. split.
  - intros (r & Heq & Hr). exists r. by simplify_eq.
  - intros (r & Hr & -> & ->). by exists r.
Qed.

Lemma indexed_tidy df keys : well_formed df → tidy (indexed df keys).
Proof.
  intros Hwf Hcols [k x] He. simpl.
  apply elem_of_indexed in He as (r & Hr & -> & ->).
  apply map_eq. intros c. rewrite lookup_empty, lookup_drop_columns.
  destruct (decide (c ∈ keys)) as [|Hni]; [done|].
  destruct (r !! c) as [v|] eqn:Hc; [|done]. exfalso.
  assert (c ∈ icolumns (indexed df keys)) as Hin.
  { apply list_elem_of_filter. split; [done|]. apply (Hwf r c Hr). by exists v. }
  rewrite Hcols in Hin. by apply elem_of_nil in Hin.
Qed.

Lemma insert_levels_ok levels cols :
  NoDup levels → (∀ c, c ∈ cols → c ∉ levels) →
  insert_levels levels cols = Ok (levels ++ cols).
Proof.
  unfold insert_levels. induction 1 as [|n levels Hni Hnd IH]; intros Hdisj; [done|].
  simpl. rewrite IH.
  - simpl. rewrite decide_False; [done|].
    rewrite elem_of_app. intros [Hin|Hin]; [done|].
    apply (Hdisj n Hin). by left.
  - intros c Hc Hin. apply (Hdisj c Hc). by right.
Qed.

(** With key columns that exist on both sides the merge raises nothing;
    its rows are the rows of [combine_first] with their labels put back. *)
Lemma merge_tables_by_key_ok P F keys :
  keys ≠ [] → NoDup keys →
  (∀ c, c ∈ keys → c ∈ columns P) → (∀ c, c ∈ keys → c ∈ columns F) →
  merge_tables_by_key P F keys
  = Ok {| columns := keys ++ icolumns (combine_first (indexed P keys) (indexed F keys));
          rows := (λ e, restore_key keys e.1 e.2)
                    <$> entries (combine_first (indexed P keys) (indexed F keys)) |}.
Proof.
  intros Hne Hnd HP HF. unfold merge_tables_by_key.
  rewrite (set_index_ok P keys), (set_index_ok F keys) by done.
  unfold mbind, result_bind, reset_index.
  rewrite combine_first_names by done. simpl.
  rewrite insert_levels_ok; [done|done|].
  intros c Hc. apply combine_first_icolumns in Hc as [Hc|Hc];
    apply list_elem_of_filter in Hc as [Hc _]; done.
Qed.

Lemma elem_of_keys_of k keys df :
  k ∈ keys_of keys df ↔ ∃ r, r ∈ rows df ∧ row_key keys r = k.
Proof.
  unfold keys_of. rewrite list_elem_of_fmap. split; intros (r & ? & ?); by exists r.
Qed.

(** Labels survive the round trip through the index. *)
Lemma keys_of_merged P F keys :
  (row_key keys ∘ (λ e, restore_key keys e.1 e.2))
    <$> entries (combine_first (indexed P keys) (indexed F keys))
  = index (combine_first (indexed P keys) (indexed F keys)).
Proof.
  unfold index. apply list_fmap_ext. intros i [k z] He. simpl.
  assert (k ∈ index (combine_first (indexed P keys) (indexed F keys))) as Hk.
  { apply list_elem_of_lookup_2 in He. by eapply elem_of_index. }
  apply combine_first_index in Hk. rewrite !index_indexed in Hk.
  destruct Hk as [Hk|Hk]; apply elem_of_keys_of in Hk as (r & _ & <-);
    apply row_key_restore.
Qed.

(** ** The order on keys *)

Lemma string_leb_trans s1 s2 s3 :
  String.leb s1 s2 = true → String.leb s2 s3 = true → String.leb s1 s3 = true.
Proof.
  unfold String.leb. revert s2 s3.
  induction s1 as [|c1 s1 IH]; intros [|c2 s2] [|c3 s3]; simpl; try done.
  unfold Ascii.compare.
  destruct (N.compare_spec (N_of_ascii c1) (N_of_ascii c2)) as [H12|H12|H12];
  destruct (N.compare_spec (N_of_ascii c2) (N_of_ascii c3)) as [H23|H23|H23];
  destruct (N.compare_spec (N_of_ascii c1) (N_of_ascii c3)) as [H13|H13|H13];
    try done; try lia.
  apply IH.
Qed.

Global Instance string_le_total : Total string_le.
Proof.
  intros s t. unfold string_le. rewrite !Is_true_true. apply String.leb_total.
Qed.

Global Instance string_le_trans : Transitive string_le.
Proof.
  intros s t u. unfold string_le. rewrite !Is_true_true. apply string_leb_trans.
Qed.

Global Instance string_le_antisym : AntiSymm (=) string_le.
Proof.
  intros s t. unfold string_le. rewrite !Is_true_true. apply String.leb_antisym.
Qed.

Global Instance value_le_total : Total value_le.
Proof.
  intros [x|s] [y|t]; simpl; try tauto; [lia | apply (total string_le)].
Qed.

Global Instance value_le_trans : Transitive value_le.
Proof.
  intros [x|s] [y|t] [z|u]; simpl; try tauto; [lia | apply (transitivity (R:=string_le))].
Qed.

Global Instance value_le_antisym : AntiSymm (=) value_le.
Proof.
  intros [x|s] [y|t]; simpl; try tauto.
  - intros. f_equal. lia.
  - intros H1 H2. f_equal. by apply (anti_symm string_le).
Qed.

Global Instance cell_le_total : Total cell_le.
Proof. intros [x|] [y|]; simpl; try tauto. apply (total value_le). Qed.

Global Instance cell_le_trans : Transitive cell_le.
Proof.
  intros [x|] [y|] [z|]; simpl; try tauto. apply (transitivity (R:=value_le)).
Qed.

Global Instance cell_le_antisym : AntiSymm (=) cell_le.
Proof.
  intros [x|] [y|]; simpl; try tauto.
  intros H1 H2. f_equal. by apply (anti_symm value_le).
Qed.

Global Instance key_le_total : Total key_le.
Proof.
  intros k1. induction k1 as [|a k1 IH]; intros [|b k2]; simpl; try tauto.
  destruct (decide (a = b)) as [Hab|Hab], (decide (b = a)) as [Hba|Hba];
    try congruence.
  - apply IH.
  - apply (total cell_le).
Qed.

Global Instance key_le_trans : Transitive key_le.
Proof.
  intros k1. induction k1 as [|a k1 IH]; intros [|b k2] [|c k3]; simpl; try tauto.
  destruct (decide (a = b)) as [Hab|Hab], (decide (b = c)) as [Hbc|Hbc],
    (decide (a = c)) as [Hac|Hac]; try congruence; subst.
  - apply IH.
  - intros H1 H2. destruct Hab. by apply (anti_symm cell_le).
  - intros H1 H2. by trans b.
Qed.

Lemma StronglySorted_strict (l : list (list (option value))) :
  StronglySorted key_le l → NoDup l → StronglySorted key_lt l.
Proof.
  induction 1 as [|k l Hl IH Hall]; intros Hnd; constructor.
  - apply IH. by apply NoDup_cons in Hnd as [_ ?].
  - apply NoDup_cons in Hnd as [Hni _].
    apply Forall_forall. intros k' Hk'. split.
    + by eapply Forall_forall in Hall.
    + intros ->. done.
Qed.

(** ** TableMerger: the merged rows *)

Lemma well_formed_dom df :
  Forall (λ r, dom r ⊆ list_to_set (columns df)) (rows df) → well_formed df.
Proof.
  intros Hall r c Hr Hc. eapply Forall_forall in Hall; [|done].
  apply elem_of_dom in Hc. apply Hall in Hc. by apply elem_of_list_to_set in Hc.
Qed.

Lemma elem_of_merged_rows P F keys r :
  r ∈ (λ e, restore_key keys e.1 e.2)
        <$> entries (combine_first (indexed P keys) (indexed F keys)) ↔
  ∃ k z, (k, z) ∈ entries (combine_first (indexed P keys) (indexed F keys))
         ∧ r = restore_key keys k z.
Proof.
  rewrite list_elem_of_fmap. split.
  - intros ([k z] & -> & He). by exists k, z.
  - intros (k & z & He & ->). by exists (k, z).
Qed.

Lemma keys_of_out P F keys cols :
  keys_of keys
    {| columns := cols;
       rows := (λ e, restore_key keys e.1 e.2)
                 <$> entries (combine_first (indexed P keys) (indexed F keys)) |}
  = index (combine_first (indexed P keys) (indexed F keys)).
Proof. unfold keys_of. simpl. rewrite <- list_fmap_compose. apply keys_of_merged. Qed.


Lemma users_well_formed : well_formed users_p ∧ well_formed users_f.
Proof.
  split; apply well_formed_dom; apply (bool_decide_unpack _); vm_compute; exact I.
Qed.

(** Every integer of magnitude below 2^53 is exact. *)
Lemma exact_small z : (Z.abs z < 2 ^ 53)%Z → exact (VInt z).
Proof.
  intros Hz. simpl. split; [|lia]. unfold round_float64.
  destruct (Z.ltb_spec (Z.abs z) (2 ^ 53)); [done|lia].
Qed.

Lemma exact_frame_cells df :
  Forall (λ r, map_Forall (λ _ v, exact v) r) (rows df) → exact_frame df.
Proof.
  intros Hall r c v Hr Hv. eapply Forall_forall in Hall; [|done].
  by apply (Hall c v).
Qed.

Lemma users_exact : exact_frame users_p ∧ exact_frame users_f.
Proof.
  split; apply exact_frame_cells; apply (bool_decide_unpack _); vm_compute; exact I.
Qed.






(** ** TableMerger: the order of the merged rows *)

Lemma frame_combine_no_columns self other :
  icolumns self = [] → icolumns other = [] →
  length (align (entries self) (entries other)) = length (entries self) →
  frame_combine self other = self.
Proof.
  intros H1 H2 Hlen. unfold frame_combine, frame_empty. simpl.
  rewrite H1, H2. unfold union_columns. rewrite decide_True by done.
  rewrite (bool_decide_eq_true_2 (@nil string = [])) by done. simpl.
  rewrite length_fmap. by rewrite bool_decide_eq_true_2.
Qed.

Lemma length_align_within E1 E2 :
  NoDup E1.*1 → NoDup E2.*1 → (∀ k, k ∈ E2.*1 → k ∈ E1.*1) →
  length (align E1 E2) = length E1.
Proof.
  intros H1 H2 Hsub.
  rewrite <- (length_fmap fst (align E1 E2)), align_index_unique by done.
  destruct (decide _) as [|Hne]; [by rewrite length_fmap|].
  rewrite <- (length_fmap fst E1). apply Permutation_length.
  apply NoDup_Permutation; [apply NoDup_join_labels|done|].
  intros k. rewrite elem_of_join_labels. split; [|by left].
  intros [?|?]; auto.
Qed.

(** The three cases in which the result has the index of [self]. *)
Lemma combine_first_index_kept self other :
  NoDup (index self) → NoDup (index other) →
  entries other = [] ∨ index self = index other
  ∨ (icolumns self = [] ∧ icolumns other = []
     ∧ ∀ k, k ∈ index other → k ∈ index self) →
  index (combine_first self other) = index self.
Proof.
  intros H1 H2 [He|[Heq|(Hc1 & Hc2 & Hsub)]].
  - unfold combine_first. by rewrite bool_decide_eq_true_2.
  - destruct (combine_first_index_cases self other) as [[-> _]|[_ ->]]; [done|].
    unfold align. rewrite decide_True by done. by apply fst_zipped.
  - unfold combine_first. destruct (bool_decide _); [done|].
    rewrite frame_combine_no_columns; [done..|]. by apply length_align_within.
Qed.

(** In every other case the result has the index of the outer join. *)
Lemma combine_first_index_joined self other :
  NoDup (index self) → NoDup (index other) →
  entries other ≠ [] → index self ≠ index other →
  ¬ (icolumns self = [] ∧ icolumns other = []
     ∧ ∀ k, k ∈ index other → k ∈ index self) →
  index (combine_first self other) = join_labels (index self) (index other).
Proof.
  intros H1 H2 Ho Hne Hno.
  assert ((align (entries self) (entries other)).*1
          = join_labels (index self) (index other)) as Hal.
  { rewrite align_index_unique by done. by rewrite decide_False. }
  unfold combine_first. rewrite bool_decide_eq_false_2 by done.
  destruct (frame_combine_cases self other) as [(_ & Hemp & Hlen)|[(Heq & Hemp)|Heq]].
  - exfalso. destruct Hemp as [Hcols|Hnil].
    + apply union_columns_nil in Hcols as [Hc1 Hc2]. apply Hno.
      split; [done|]. split; [done|]. intros k. by apply align_same_length.
    + destruct (entries other) as [|[k y] E] eqn:HE; [done|].
      assert (k ∈ (align (entries self) ((k, y) :: E)).*1) as Hk.
      { apply align_index. right. simpl. by left. }
      rewrite Hnil in Hk. by apply elem_of_nil in Hk.
  - rewrite Heq. unfold index at 1. simpl. rewrite <- list_fmap_compose. apply Hal.
  - rewrite Heq. unfold index at 1. simpl. rewrite combined_index. apply Hal.
Qed.

Lemma priority_order_indexed P F keys :
  priority_order P F keys ↔
  entries (indexed F keys) = []
  ∨ index (indexed P keys) = index (indexed F keys)
  ∨ (icolumns (indexed P keys) = [] ∧ icolumns (indexed F keys) = []
     ∧ ∀ k, k ∈ index (indexed F keys) → k ∈ index (indexed P keys)).
Proof.
  unfold priority_order. rewrite !index_indexed, Forall_forall. simpl.
  assert (rows F = [] ↔ (λ r, (row_key keys r, drop_columns keys r)) <$> rows F = [])
    as ->; [|done].
  split; [by intros ->|apply fmap_nil_inv].
Qed.

(** C8 (amended): for key-unique inputs whose key cells can all be compared
    (none is null and, column by column, they are all integers or all
    text), the merge puts the rows in strictly ascending order of their key
    tuples, compared lexicographically over the key columns as given,
    except in three cases, in which it keeps the order of the priority
    rows: the fallback has no rows; both inputs list the same keys in the
    same order; no input has a column besides the key columns and every
    fallback key is a priority key.  So the merged rows are ascending
    exactly when the priority rows are, or none of the three cases
    applies. *)
Theorem merge_sorted_by_key P F keys :
  keys ≠ [] → NoDup keys →
  (∀ c, c ∈ keys → c ∈ columns P) → (∀ c, c ∈ keys → c ∈ columns F) →
  NoDup (keys_of keys P) → NoDup (keys_of keys F) →
  comparable_all (keys_of keys P ++ keys_of keys F) = true →
  ∃ out, merge_tables_by_key P F keys = Ok out
    ∧ keys_of keys out
      = (if decide (priority_order P F keys) then keys_of keys P
         else merge_sort key_le (remove_dups (keys_of keys P ++ keys_of keys F)))
    ∧ (StronglySorted key_lt (keys_of keys out)
       ↔ StronglySorted key_lt (keys_of keys P) ∨ ¬ priority_order P F keys).
Proof.
  intros Hne Hnd HP HF HuP HuF Hcmp.
  eexists. split; [by apply merge_tables_by_key_ok|].
  rewrite keys_of_out.
  assert (index (combine_first (indexed P keys) (indexed F keys))
          = if decide (priority_order P F keys) then keys_of keys P
            else merge_sort key_le (remove_dups (keys_of keys P ++ keys_of keys F)))
    as Hidx.
  { destruct (decide (priority_order P F keys)) as [Hpo|Hpo].
    - rewrite combine_first_index_kept; rewrite ?index_indexed; try done.
      apply priority_order_indexed in Hpo. by rewrite !index_indexed in Hpo.
    - rewrite priority_order_indexed in Hpo.
      rewrite combine_first_index_joined; rewrite ?index_indexed; try done.
      + unfold join_labels, sorts. by rewrite Hcmp.
      + intros He. apply Hpo. by left.
      + intros He. apply Hpo. right. left. by rewrite !index_indexed.
      + intros He. apply Hpo. right. right. by rewrite !index_indexed. }
  split; [done|]. rewrite Hidx.
  destruct (decide (priority_order P F keys)) as [Hpo|Hpo].
  - split; [by left|]. by intros [?|?].
  - split; [by right|]. intros _.
    apply StronglySorted_strict.
    + apply (StronglySorted_merge_sort key_le).
    + rewrite merge_sort_Permutation. apply NoDup_remove_dups.
Qed.

Lemma merge_sorted_by_key_witness :
  ∃ out, merge_tables_by_key users_p users_f ["id"] = Ok out
    ∧ keys_of ["id"] out
      = (if decide (priority_order users_p users_f ["id"]) then keys_of ["id"] users_p
         else merge_sort key_le
                (remove_dups (keys_of ["id"] users_p ++ keys_of ["id"] users_f)))
    ∧ (StronglySorted key_lt (keys_of ["id"] out)
       ↔ StronglySorted key_lt (keys_of ["id"] users_p)
         ∨ ¬ priority_order users_p users_f ["id"]).
Proof.
  apply (merge_sorted_by_key users_p users_f ["id"]).
  - discriminate.
  - apply NoDup_singleton.
  - intros c Hc. apply list_elem_of_singleton in Hc. subst c. by left.
  - intros c Hc. apply list_elem_of_singleton in Hc. subst c. by left.
  - vm_compute. apply NoDup_singleton.
  - apply (bool_decide_unpack _). vm_compute. exact I.
  - reflexivity.
Defined.

(** None of the three cases applies to the [users] frames, whose merged
    rows are ascending although the fallback rows are not. *)
Example users_reordered :
  ¬ priority_order users_p users_f ["id"]
  ∧ keys_of ["id"] users_f = [[Some (VInt 2)]; [Some (VInt 1)]]
  ∧ merge_sort key_le (remove_dups (keys_of ["id"] users_p ++ keys_of ["id"] users_f))
    = [[Some (VInt 1)]; [Some (VInt 2)]].
Proof.
  split; [|split; vm_compute; reflexivity].
  apply (bool_decide_unpack _). vm_compute. exact I.
Qed.

(** The end-to-end scenario of the specification: Alice's missing email is
    filled from the fallback, Bob is taken over, and the rows come in
    ascending order of [id]. *)
Example users_merged :
  merge_tables_by_key users_p users_f ["id"]
  = Ok (mk_frame ["id"; "name"; "email"]
          [ [("id", VInt 1); ("name", VText "Alice"); ("email", VText "alice@x.com")];
            [("id", VInt 2); ("name", VText "Bob"); ("email", VText "bob@x.com")] ]).
Proof. vm_compute. reflexivity. Qed.

(** A priority input without rows does not disturb the order. *)
Example users_from_fallback_sorted :
  ∃ out, merge_tables_by_key users_none users_f ["id"] = Ok out
    ∧ keys_of ["id"] out = [[Some (VInt 1)]; [Some (VInt 2)]].
Proof. eexists. split; vm_compute; reflexivity. Qed.

Lemma not_sorted_2_1 (a b : Z) :
  (b < a)%Z → ¬ Sorted key_le [[Some (VInt a)]; [Some (VInt b)]].
Proof.
  intros Hlt Hs. apply Sorted_inv in Hs as [_ Hhd]. apply HdRel_inv in Hhd.
  simpl in Hhd. destruct (decide (Some (VInt a) = Some (VInt b))) as [Heq|_].
  - injection Heq as ->. lia.
  - simpl in Hhd. lia.
Qed.

(** C8, as stated, fails, in four ways, all on key-unique inputs.  Both
    snapshots of [teams] list team 2046 before team 1425, and so does the
    merged frame.  A fallback without rows leaves the priority rows in
    their order.  A table with no column besides its key, whose fallback
    keys are among the priority keys, is handed back in the order of the
    priority.  And keys that cannot be compared, text on one side and
    integers on the other, are not sorted at all: the priority's come
    first, where the order that pandas uses when it sorts mixed values has integers
    before text. *)
Lemma same_order_not_sorted :
  (NoDup (keys_of ["id"] teams_p) ∧ NoDup (keys_of ["id"] teams_f)
   ∧ ∃ out, merge_tables_by_key teams_p teams_f ["id"] = Ok out
       ∧ keys_of ["id"] out = [[Some (VInt 2046)]; [Some (VInt 1425)]]
       ∧ ¬ Sorted key_le (keys_of ["id"] out))
  ∧ (NoDup (keys_of ["id"] users_f) ∧ NoDup (keys_of ["id"] users_none)
     ∧ ∃ out, merge_tables_by_key users_f users_none ["id"] = Ok out
         ∧ keys_of ["id"] out = [[Some (VInt 2)]; [Some (VInt 1)]]
         ∧ ¬ Sorted key_le (keys_of ["id"] out))
  ∧ (NoDup (keys_of ["id"] pairs_p) ∧ NoDup (keys_of ["id"] pairs_f)
     ∧ ∃ out, merge_tables_by_key pairs_p pairs_f ["id"] = Ok out
         ∧ keys_of ["id"] out = [[Some (VInt 2)]; [Some (VInt 1)]]
         ∧ ¬ Sorted key_le (keys_of ["id"] out))
  ∧ (NoDup (keys_of ["id"] tags_p) ∧ NoDup (keys_of ["id"] tags_f)
     ∧ ∃ out, merge_tables_by_key tags_p tags_f ["id"] = Ok out
         ∧ keys_of ["id"] out = [[Some (VText "a")]; [Some (VInt 1)]]
         ∧ ¬ Sorted key_le (keys_of ["id"] out)).
Proof.
  repeat split; try (apply (bool_decide_unpack _); vm_compute; exact I).
  - eexists. split; [vm_compute; reflexivity|].
    split; [vm_compute; reflexivity|].
    intros Hs. vm_compute in Hs. revert Hs. by apply not_sorted_2_1.
  - eexists. split; [vm_compute; reflexivity|].
    split; [vm_compute; reflexivity|].
    intros Hs. vm_compute in Hs. revert Hs. by apply not_sorted_2_1.
  - eexists. split; [vm_compute; reflexivity|].
    split; [vm_compute; reflexivity|].
    intros Hs. vm_compute in Hs. revert Hs. by apply not_sorted_2_1.
  - eexists. split; [vm_compute; reflexivity|].
    split; [vm_compute; reflexivity|].
    intros Hs. vm_compute in Hs.
    apply Sorted_inv in Hs as [_ Hhd]. apply HdRel_inv in Hhd.
    vm_compute in Hhd. done.
Qed.

(** ** TableMerger: when the merge raises *)

Lemma filter_nil_all {A} (P : A → Prop) `{!∀ a, Decision (P a)} (l : list A) :
  filter P l = [] ↔ ∀ a, a ∈ l → ¬ P a.
Proof.
  induction l as [|a l IH].
  - split; [|done]. intros _ a Ha. by apply elem_of_nil in Ha.
  - rewrite filter_cons. destruct (decide (P a)) as [Ha|Ha].
    + split; [done|]. intros Hall. destruct (Hall a); [by left|done].
    + rewrite IH. split.
      * intros Hall b Hb. apply elem_of_cons in Hb as [->|Hb]; [done|by apply Hall].
      * intros Hall b Hb. apply Hall. by right.
Qed.

Lemma insert_levels_inv levels cols cs :
  insert_levels levels cols = Ok cs → cs = levels ++ cols ∧ NoDup levels.
Proof.
  unfold insert_levels. revert cs.
  induction levels as [|n levels IH]; intros cs; simpl.
  - intros [= <-]. split; [done|constructor].
  - destruct (foldr _ (Ok cols) levels) as [cs'|e] eqn:Hrec; simpl; [|done].
    destruct (IH cs' eq_refl) as [-> Hnd].
    destruct (decide (n ∈ levels ++ cols)) as [Hin|Hni]; [done|].
    intros [= <-]. split; [done|]. constructor; [|done].
    intros Hn. apply Hni, elem_of_app. by left.
Qed.

(** X1: the merge returns a frame exactly when the key list is not empty,
    names no column twice, and every key column is a column of both
    frames. *)
Theorem merge_succeeds_iff P F keys :
  (∃ out, merge_tables_by_key P F keys = Ok out) ↔
  keys ≠ [] ∧ NoDup keys
  ∧ (∀ c, c ∈ keys → c ∈ columns P) ∧ (∀ c, c ∈ keys → c ∈ columns F).
Proof.
  split.
  - intros [out Hout]. unfold merge_tables_by_key, set_index in Hout.
    destruct (filter (λ c, c ∉ columns P) keys) as [|? ?] eqn:HmP; [|done].
    destruct keys as [|k0 keys0] eqn:Hkeys; [done|]. rewrite <- Hkeys in *.
    assert (keys ≠ []) as Hne by (by rewrite Hkeys).
    simpl in Hout.
    destruct (filter (λ c, c ∉ columns F) keys) as [|? ?] eqn:HmF; [|done].
    rewrite Hkeys in Hout at 1. simpl in Hout.
    unfold reset_index in Hout. rewrite combine_first_names in Hout by done.
    simpl in Hout.
    destruct (insert_levels keys _) as [cs|e] eqn:Hins; [|done].
    apply insert_levels_inv in Hins as [_ Hnd].
    split; [done|]. split; [done|]. split.
    + intros c Hc. pose proof (proj1 (filter_nil_all _ _) HmP c Hc) as H.
      by apply dec_stable in H.
    + intros c Hc. pose proof (proj1 (filter_nil_all _ _) HmF c Hc) as H.
      by apply dec_stable in H.
  - intros (Hne & Hnd & HP & HF). eexists. by apply merge_tables_by_key_ok.
Qed.

(** X2: a key column that the priority frame lacks makes the merge raise
    KeyError with the key columns missing from the priority frame; when
    the priority frame has them all, the key columns missing from the
    fallback frame are reported. *)
Theorem merge_missing_key P F keys :
  (filter (λ c, c ∉ columns P) keys ≠ [] →
   merge_tables_by_key P F keys
   = Raise (KeyError (filter (λ c, c ∉ columns P) keys)))
  ∧ (filter (λ c, c ∉ columns P) keys = [] →
     filter (λ c, c ∉ columns F) keys ≠ [] →
     merge_tables_by_key P F keys
     = Raise (KeyError (filter (λ c, c ∉ columns F) keys))).
Proof.
  unfold merge_tables_by_key, set_index. split.
  - intros Hm. by destruct (filter (λ c, c ∉ columns P) keys).
  - intros -> Hm. destruct keys as [|k keys]; [done|]. simpl.
    set (mF := filter (λ c, c ∉ columns F) (k :: keys)) in *.
    by destruct mF.
Qed.

Lemma merge_missing_key_witness :
  (filter (λ c, c ∉ columns users_p) ["id"; "team"] ≠ [] →
   merge_tables_by_key users_p users_f ["id"; "team"]
   = Raise (KeyError (filter (λ c, c ∉ columns users_p) ["id"; "team"])))
  ∧ (filter (λ c, c ∉ columns users_p) ["id"; "team"] = [] →
     filter (λ c, c ∉ columns users_f) ["id"; "team"] ≠ [] →
     merge_tables_by_key users_p users_f ["id"; "team"]
     = Raise (KeyError (filter (λ c, c ∉ columns users_f) ["id"; "team"]))).
Proof. apply (merge_missing_key users_p users_f ["id"; "team"]). Defined.

Example merge_missing_team :
  merge_tables_by_key users_p users_f ["id"; "team"] = Raise (KeyError ["team"]).
Proof. vm_compute. reflexivity. Qed.

(** ** TableMerger: columns and degenerate inputs *)

Lemma no_extra_columns (cs : list string) :
  merge_sort string_le (filter (λ c, c ∉ cs) (remove_dups cs)) = [].
Proof.
  assert (filter (λ c, c ∉ cs) (remove_dups cs) = []) as ->; [|done].
  apply filter_nil_all. intros c Hc Hn. apply Hn. by apply elem_of_remove_dups.
Qed.

Lemma combine_first_icolumns_same self other :
  icolumns self = icolumns other →
  icolumns (combine_first self other) = icolumns self.
Proof.
  intros Heq. unfold combine_first. destruct (bool_decide _); simpl.
  - by rewrite <- Heq, no_extra_columns, app_nil_r.
  - destruct (frame_combine_cases self other) as [(-> & _)|[(-> & _)| ->]];
      simpl; [done|unfold union_columns; by rewrite decide_True..].
Qed.

Lemma zipped_diag (E : list (list (option value) * gmap string value)) :
  zip_with (λ e1 e2, (e1.1, (e1.2, e2.2))) E E = (λ e, (e.1, (e.2, e.2))) <$> E.
Proof. induction E as [|e E IH]; [done|]. simpl. by rewrite IH. Qed.

Lemma lacks_false I al : (∀ a, a ∈ al → a.1 ∈ I) → lacks I al = false.
Proof.
  unfold lacks. induction al as [|a al IH]; intros Hall; [done|]. simpl.
  rewrite bool_decide_eq_false_2.
  - apply IH. intros a' Ha'. apply Hall. by right.
  - intros Hni. apply Hni, Hall. by left.
Qed.

Lemma promoted_same d c : promoted d d false false c = false.
Proof.
  unfold promoted, as_float. destruct (column_dtype d c); simpl;
    by rewrite ?andb_false_r.
Qed.

(** Between frames with the same index and the same dtypes nothing is
    cast. *)
Lemma combined_self d :
  combined d d (zip_with (λ e1 e2, (e1.1, (e1.2, e2.2))) (entries d) (entries d))
  = entries d.
Proof.
  unfold combined.
  rewrite lacks_false.
  2:{ intros a Ha. rewrite zipped_diag in Ha.
      apply list_elem_of_fmap in Ha as (e & -> & He). simpl.
      apply list_elem_of_fmap. by exists e. }
  rewrite zipped_diag, <- list_fmap_compose.
  etrans; [|apply list_fmap_id].
  apply list_fmap_ext. intros i [k x] _. simpl. f_equal.
  rewrite (convert_none _ _ (_ ∪ _)).
  2:{ intros c. by rewrite !andb_false_r. }
  rewrite !convert_none.
  - by rewrite (idemp_L (∪)).
  - intros c. destruct (decide (c ∈ icolumns d)); [apply promoted_same|].
    by rewrite andb_false_r.
  - intros c. apply promoted_same.
Qed.

Lemma combine_first_self d : entries (combine_first d d) = entries d.
Proof.
  unfold combine_first. destruct (bool_decide _); [done|].
  destruct (frame_combine_cases d d) as [(-> & _)|[(-> & _)| ->]]; [done|..];
    simpl; unfold align; rewrite decide_True by done.
  - rewrite zipped_diag, <- list_fmap_compose.
    rewrite <- (list_fmap_id (entries d)) at 2.
    apply list_fmap_ext. by intros i [k x] _.
  - apply combined_self.
Qed.

Lemma restore_indexed df keys :
  (λ e, restore_key keys e.1 e.2) <$> entries (indexed df keys) = rows df.
Proof.
  unfold indexed. simpl. rewrite <- list_fmap_compose.
  rewrite <- (list_fmap_id (rows df)) at 2.
  apply list_fmap_ext. intros i r _. simpl. apply restore_drop.
Qed.

(** X3: merging a frame with itself gives its rows back, unchanged and in
    their order, with the key columns moved to the front. *)
Theorem merge_with_itself P keys :
  keys ≠ [] → NoDup keys → (∀ c, c ∈ keys → c ∈ columns P) →
  merge_tables_by_key P P keys
  = Ok {| columns := keys ++ filter (λ c, c ∉ keys) (columns P);
          rows := rows P |}.
Proof.
  intros Hne Hnd HP. rewrite merge_tables_by_key_ok by done.
  rewrite combine_first_icolumns_same, combine_first_self by done.
  by rewrite restore_indexed.
Qed.

Lemma merge_with_itself_witness :
  merge_tables_by_key teams_f teams_f ["id"]
  = Ok {| columns := ["id"] ++ filter (λ c, c ∉ ["id"]) (columns teams_f);
          rows := rows teams_f |}.
Proof.
  apply (merge_with_itself teams_f ["id"]).
  - discriminate.
  - apply NoDup_singleton.
  - intros c Hc. apply list_elem_of_singleton in Hc. subst c. by left.
Defined.

(** X4: when the fallback frame has no rows, the merged rows are the
    priority rows, unchanged and in their order. *)
Theorem merge_empty_fallback P F keys :
  keys ≠ [] → NoDup keys →
  (∀ c, c ∈ keys → c ∈ columns P) → (∀ c, c ∈ keys → c ∈ columns F) →
  rows F = [] →
  ∃ out, merge_tables_by_key P F keys = Ok out ∧ rows out = rows P.
Proof.
  intros Hne Hnd HP HF HrF. eexists. split; [by apply merge_tables_by_key_ok|].
  simpl. unfold combine_first.
  rewrite bool_decide_eq_true_2 by (simpl; by rewrite HrF).
  apply restore_indexed.
Qed.

Lemma merge_empty_fallback_witness :
  ∃ out, merge_tables_by_key users_f users_none ["id"] = Ok out
         ∧ rows out = rows users_f.
Proof.
  apply (merge_empty_fallback users_f users_none ["id"]).
  - discriminate.
  - apply NoDup_singleton.
  - intros c Hc. apply list_elem_of_singleton in Hc. subst c. by left.
  - intros c Hc. apply list_elem_of_singleton in Hc. subst c. by left.
  - reflexivity.
Defined.

(** X5: when both frames list the same columns in the same order, the
    merged frame lists the key columns first and the other columns after
    them in that order, and every cell of a merged row sits under one of
    these columns. *)
Theorem merge_columns P F keys :
  keys ≠ [] → NoDup keys → (∀ c, c ∈ keys → c ∈ columns P) →
  columns P = columns F →
  well_formed P → well_formed F →
  ∃ out, merge_tables_by_key P F keys = Ok out
    ∧ columns out = keys ++ filter (λ c, c ∉ keys) (columns P)
    ∧ well_formed out.
Proof.
  intros Hne Hnd HP Hcols HwP HwF.
  assert (∀ c, c ∈ keys → c ∈ columns F) as HF by (by rewrite <- Hcols).
  eexists. split; [by apply merge_tables_by_key_ok|].
  assert (icolumns (combine_first (indexed P keys) (indexed F keys))
          = filter (λ c, c ∉ keys) (columns P)) as Hic.
  { rewrite combine_first_icolumns_same; [done|]. simpl. by rewrite Hcols. }
  simpl. rewrite Hic. split; [done|].
  intros r c Hr [v Hv]. simpl in *.
  apply elem_of_merged_rows in Hr as (k & z & He & ->).
  apply elem_of_app. destruct (decide (c ∈ keys)) as [|Hck]; [by left|right].
  apply list_elem_of_filter. split; [done|].
  assert (k ∈ index (combine_first (indexed P keys) (indexed F keys))) as Hk
    by (by eapply elem_of_index).
  assert (∃ r0, k = row_key keys r0) as [r0 ->].
  { apply combine_first_index in Hk. rewrite !index_indexed in Hk.
    destruct Hk as [Hk|Hk]; apply elem_of_keys_of in Hk as (r0 & _ & <-); eauto. }
  rewrite lookup_restore_key, decide_False in Hv by done.
  apply combine_first_sound in He; [|by apply indexed_tidy..].
  assert (∀ x, (∃ p, p ∈ rows P ∧ x = drop_columns keys p) →
               is_Some (x !! c) → c ∈ columns P) as HcP.
  { intros x (p & Hp & ->). rewrite lookup_drop_columns, decide_False by done.
    by apply HwP. }
  assert (∀ y, (∃ f, f ∈ rows F ∧ y = drop_columns keys f) →
               is_Some (y !! c) → c ∈ columns P) as HcF.
  { intros y (f & Hf & ->). rewrite lookup_drop_columns, decide_False by done.
    rewrite Hcols. by apply HwF. }
  assert (is_Some (z !! c)) as Hzc by (by exists v).
  destruct He as [(x & y & Hx & Hy & Hz)|[[_ (x & Hx & Hz)]|[_ (y & Hy & Hz)]]];
    apply (overlaid_is_Some _ _ _ c) in Hz; apply Hz in Hzc as [Hs|Hs];
    try (rewrite lookup_empty in Hs; by destruct Hs).
  - apply elem_of_indexed in Hx as (p & Hp & _ & ->). apply (HcP _ ltac:(eauto) Hs).
  - apply elem_of_indexed in Hy as (f & Hf & _ & ->). apply (HcF _ ltac:(eauto) Hs).
  - apply elem_of_indexed in Hx as (p & Hp & _ & ->). apply (HcP _ ltac:(eauto) Hs).
  - apply elem_of_indexed in Hy as (f & Hf & _ & ->). apply (HcF _ ltac:(eauto) Hs).
Qed.

Lemma merge_columns_witness :
  ∃ out, merge_tables_by_key users_p users_f ["id"] = Ok out
    ∧ columns out = ["id"] ++ filter (λ c, c ∉ ["id"]) (columns users_p)
    ∧ well_formed out.
Proof.
  apply (merge_columns users_p users_f ["id"]).
  - discriminate.
  - apply NoDup_singleton.
  - intros c Hc. apply list_elem_of_singleton in Hc. subst c. by left.
  - reflexivity.
  - apply users_well_formed.
  - apply users_well_formed.
Defined.

(** ** TableMerger: what the merge keeps *)

Lemma align_complete_l (E1 E2 : list (list (option value) * gmap string value)) k x :
  (k, x) ∈ E1 → ∃ y, (k, (x, y)) ∈ align E1 E2.
Proof.
  intros Hin. unfold align. destruct (decide (E1.*1 = E2.*1)) as [Heq|Hne].
  - apply list_elem_of_lookup in Hin as [i Hi].
    assert (is_Some (E2 !! i)) as [[k2 y] Hy].
    { apply lookup_lt_is_Some. rewrite <- (length_fmap fst E2), <- Heq, length_fmap.
      by eapply lookup_lt_Some. }
    exists y. apply elem_of_lookup_zip_with. by exists i, (k, x), (k2, y).
  - assert (∃ y, y ∈ reindexed (rows_at k E2)) as [y Hy].
    { destruct (rows_at k E2) as [|a l]; eexists; simpl; by left. }
    exists y. apply elem_of_join_outer. split; [|split; [|done]].
    + left. by eapply elem_of_index.
    + apply elem_of_reindexed. left. by apply elem_of_rows_at.
Qed.

Lemma combine_first_keeps self other k x :
  tidy self → (k, x) ∈ entries self →
  ∃ y z, (k, z) ∈ entries (combine_first self other) ∧ overlaid x y z.
Proof.
  intros Hts Hin. unfold combine_first.
  destruct (bool_decide _); [exists ∅, x; split; [done|apply overlaid_alone_l]|].
  destruct (frame_combine_cases self other) as [(-> & _)|[(-> & Hemp)| ->]]; simpl.
  - exists ∅, x. split; [done|apply overlaid_alone_l].
  - destruct Hemp as [Hc|He]; [|rewrite He in Hin; by apply elem_of_nil in Hin].
    pose proof (Hts Hc _ Hin) as Hx. simpl in Hx. subst x.
    destruct (align_complete_l (entries self) (entries other) k ∅ Hin) as [y Hy].
    exists y, y. split; [|apply overlaid_alone_r].
    apply list_elem_of_fmap. by exists (k, (∅, y)).
  - destruct (align_complete_l (entries self) (entries other) k x Hin) as [y Hy].
    exists y. by apply combined_complete.
Qed.

(** X6: no exactly held value of the priority frame is lost or altered: when
    every integer of the priority frame is an int64 that float64 holds
    exactly, every priority row has a merged row with its key that carries
    each of its non-null fields. *)
Theorem priority_values_kept P F keys :
  keys ≠ [] → NoDup keys →
  (∀ c, c ∈ keys → c ∈ columns P) → (∀ c, c ∈ keys → c ∈ columns F) →
  well_formed P → exact_frame P →
  ∃ out, merge_tables_by_key P F keys = Ok out
    ∧ ∀ p, p ∈ rows P →
        ∃ r, r ∈ rows out ∧ row_key keys r = row_key keys p
             ∧ ∀ c v, p !! c = Some v → r !! c = Some v.
Proof.
  intros Hne Hnd HP HF HwP HeP. eexists. split; [by apply merge_tables_by_key_ok|].
  simpl. intros p Hp.
  destruct (combine_first_keeps (indexed P keys) (indexed F keys)
              (row_key keys p) (drop_columns keys p)) as (y & z & Hz & Hov).
  { by apply indexed_tidy. }
  { apply elem_of_indexed. by exists p. }
  exists (restore_key keys (row_key keys p) z). split; [|split].
  - apply elem_of_merged_rows. by exists (row_key keys p), z.
  - apply row_key_restore.
  - intros c v Hv. rewrite lookup_restore_key.
    destruct (decide (c ∈ keys)) as [|Hni]; [done|].
    eapply overlaid_kept; [done| |by eapply HeP].
    by rewrite lookup_drop_columns, decide_False.
Qed.

Lemma priority_values_kept_witness :
  ∃ out, merge_tables_by_key users_p users_f ["id"] = Ok out
    ∧ ∀ p, p ∈ rows users_p →
        ∃ r, r ∈ rows out ∧ row_key ["id"] r = row_key ["id"] p
             ∧ ∀ c v, p !! c = Some v → r !! c = Some v.
Proof.
  apply (priority_values_kept users_p users_f ["id"]).
  - discriminate.
  - apply NoDup_singleton.
  - intros c Hc. apply list_elem_of_singleton in Hc. subst c. by left.
  - intros c Hc. apply list_elem_of_singleton in Hc. subst c. by left.
  - apply users_well_formed.
  - apply users_exact.
Defined.





(** ** SchemaInspector: keys of one column *)

Lemma primary_key_names_simple fetched :
  Forall (λ r, ti_pk r = 0 ∨ ti_pk r = 1) fetched →
  primary_key_names fetched = declared_primary_keys fetched.
Proof.
  unfold primary_key_names, declared_primary_keys.
  induction 1 as [|r l Hr _ IH]; [done|].
  rewrite !filter_cons.
  destruct (decide (ti_pk r = 1)) as [H1|H1], (decide (ti_pk r ≠ 0)) as [H0|H0];
    rewrite ?fmap_cons, ?IH; try done; exfalso; destruct Hr as [Hr|Hr];
    rewrite Hr in *; first [ by apply H0 | by apply H1 | discriminate ].
Qed.

(** X8: for a table whose primary key has at most one column (every [pk]
    entry is 0 or 1), [get_primary_keys] returns exactly the columns the
    schema flags as primary key, in the order of the schema. *)
Theorem get_primary_keys_simple w conn t fetched :
  table_info w conn t = Ok fetched →
  Forall (λ r, ti_pk r = 0 ∨ ti_pk r = 1) fetched →
  get_primary_keys w conn t = Ok (declared_primary_keys fetched).
Proof.
  unfold get_primary_keys. intros -> Hpk. simpl. unfold mret, result_ret.
  by rewrite primary_key_names_simple.
Qed.

Lemma get_primary_keys_simple_witness :
  get_primary_keys scouting Priority "teams" = Ok (declared_primary_keys teams_info).
Proof.
  apply (get_primary_keys_simple scouting Priority "teams" teams_info).
  - reflexivity.
  - apply (bool_decide_unpack _). vm_compute. exact I.
Defined.

Example get_primary_keys_teams :
  get_primary_keys scouting Priority "teams" = Ok ["id"]
  ∧ get_primary_keys scouting Priority "notes" = Ok [].
Proof. split; reflexivity. Qed.

(** ** MergeOrchestrator: what one table does to the output *)

Lemma foldl_merge_one_app w st l1 l2 :
  foldl (merge_one w) st (l1 ++ l2) = foldl (merge_one w) (foldl (merge_one w) st l1) l2.
Proof. apply foldl_app. Qed.

Lemma merge_one_declared w st t dfp dff ks m :
  select_all w Priority t = Ok dfp →
  select_all w Fallback t = Ok dff →
  list_to_set (columns dfp) =@{gset string} list_to_set (columns dff) →
  get_primary_keys w Priority t = Ok ks → ks ≠ [] →
  merge_tables_by_key dfp dff ks = Ok m →
  to_sql_fault w t m = None →
  merge_one w st t
  = {| connections := connections st;
       output_db := <[t := m]> (output_db st);
       stdout := stdout st ++ [MergingTable t; Merged (length (rows m)) t] |}.
Proof.
  intros Hp Hf Heq Hks Hne Hm Hw. unfold merge_one, merge_table.
  unfold mbind, mret, M_bind, M_ret, lift, continue, print, to_sql.
  cbn beta iota delta [fst snd connections output_db stdout].
  rewrite Hp, Hf. cbn beta iota.
  rewrite bool_decide_eq_false_2 by (intros H; by apply H). cbn beta iota.
  rewrite Hks. cbn beta iota.
  rewrite bool_decide_eq_false_2 by done. cbn beta iota.
  rewrite Hm. cbn beta iota. rewrite Hw.
  cbn beta iota delta [fst snd connections output_db stdout].
  by rewrite <- app_assoc.
Qed.

(** X9: a table with a declared primary key whose two row sets load, agree
    on their column names and merge is written to the output database
    under its own name, replacing what was there, and the run prints the
    number of rows written; at the end of a run over distinct table names
    the output database holds that merged frame under the name. *)
Theorem declared_key_table_written w p f o ts t dfp dff ks m :
  first_missing w [p; f] = None →
  connect w p = None → connect w f = None → connect w o = None →
  sqlite_master w = Ok ts → NoDup ts → t ∈ ts →
  select_all w Priority t = Ok dfp →
  select_all w Fallback t = Ok dff →
  list_to_set (columns dfp) =@{gset string} list_to_set (columns dff) →
  get_primary_keys w Priority t = Ok ks → ks ≠ [] →
  merge_tables_by_key dfp dff ks = Ok m →
  to_sql_fault w t m = None →
  (∀ st, merge_one w st t
         = {| connections := connections st;
              output_db := <[t := m]> (output_db st);
              stdout := stdout st ++ [MergingTable t; Merged (length (rows m)) t] |})
  ∧ output_db (merge_databases w p f o).2 !! t = Some m.
Proof.
  intros Hm Hcp Hcf Hco Hts Hnd Hin Hp Hf Heq Hks Hne Hmerge Hw.
  assert (∀ st, merge_one w st t
         = {| connections := connections st;
              output_db := <[t := m]> (output_db st);
              stdout := stdout st ++ [MergingTable t; Merged (length (rows m)) t] |})
    as Hone by (intros st; by eapply merge_one_declared).
  split; [done|].
  rewrite (run_reaches_loop w p f o ts) by done. simpl.
  apply list_elem_of_split in Hin as (l1 & l2 & ->).
  apply NoDup_app in Hnd as (_ & _ & Hnd). apply NoDup_cons in Hnd as [Hni _].
  rewrite foldl_merge_one_app. simpl.
  rewrite loop_output_other by done. rewrite Hone. simpl.
  apply lookup_insert_eq.
Qed.

Lemma teams_merged_by_key :
  merge_tables_by_key teams_p teams_f ["id"] = Ok teams_merged.
Proof. vm_compute. reflexivity. Qed.

Lemma declared_key_table_written_witness :
  (∀ st, merge_one scouting st "teams"
         = {| connections := connections st;
              output_db := <["teams" := teams_merged]> (output_db st);
              stdout := stdout st ++ [MergingTable "teams";
                                      Merged (length (rows teams_merged)) "teams"] |})
  ∧ output_db (merge_databases scouting "priority.db" "fallback.db" "out.db").2 !! "teams"
    = Some teams_merged.
Proof.
  apply (declared_key_table_written scouting "priority.db" "fallback.db" "out.db"
           ["teams"; "MATCHES"; "notes"; "events"; "ghost"] "teams"
           teams_p teams_f ["id"] teams_merged);
    try reflexivity.
  - apply (bool_decide_unpack _). vm_compute. exact I.
  - by left.
  - discriminate.
Defined.

Lemma merge_one_failed w st t e :
  (merge_table w t st).2 = Raised e →
  (output_db (merge_one w st t) = output_db st
   ∨ ∃ df remains, to_sql_fault w t df = Some (FaultAfter e remains)
       ∧ output_db (merge_one w st t)
         = partial_alter (λ _, remains) t (output_db st))
  ∧ ∃ evs, stdout (merge_one w st t)
           = stdout st ++ MergingTable t :: evs ++ [ErrorMerging t e].
Proof.
  intros He.
  rewrite (merge_table_signal w t st (print (MergingTable t) st).1) in He.
  revert He. run_body. body_cases; intros He; try discriminate He;
    injection He as ->;
    (split; [first [ left; reflexivity
                   | right; eexists _, _; split; [eassumption|reflexivity] ]|]);
    rewrite <- ?app_assoc; simpl.
  all: first [ by exists [] | by eexists [_] | by eexists [_; _] ].
Qed.

Lemma loop_failed_untouched w ts st t e :
  (merge_table w t st).2 = Raised e →
  (∀ df e' remains, to_sql_fault w t df ≠ Some (FaultAfter e' remains)) →
  output_db (foldl (merge_one w) st ts) !! t = output_db st !! t.
Proof.
  intros He Hw. revert st He.
  induction ts as [|t' ts IH]; intros st He; simpl; [done|].
  rewrite IH by (by rewrite (merge_table_signal w t _ st)).
  destruct (decide (t = t')) as [<-|Hd].
  - destruct (merge_one_failed w st t e He) as [[->|(df & r & Hf & _)] _]; [done|].
    by destruct (Hw df e r).
  - by apply merge_one_output_other.
Qed.

(** X10: a table whose statements raise, and whose write never fails after
    dropping the table, writes nothing: its iteration leaves the output
    database as it was and ends by printing the error, and at the end of
    the run the output database holds under that name what it held before
    the run. *)
Theorem failed_table_writes_nothing w p f o ts t e st :
  first_missing w [p; f] = None →
  connect w p = None → connect w f = None → connect w o = None →
  sqlite_master w = Ok ts →
  (merge_table w t st).2 = Raised e →
  (∀ df e' remains, to_sql_fault w t df ≠ Some (FaultAfter e' remains)) →
  (output_db (merge_one w st t) = output_db st
   ∧ ∃ evs, stdout (merge_one w st t)
            = stdout st ++ MergingTable t :: evs ++ [ErrorMerging t e])
  ∧ output_db (merge_databases w p f o).2 !! t = sink w !! t.
Proof.
  intros Hm Hcp Hcf Hco Hts He Hw. split.
  - destruct (merge_one_failed w st t e He) as [[Ho|(df & r & Hf & _)] Hs]; [done|].
    by destruct (Hw df e r).
  - rewrite (run_reaches_loop w p f o ts) by done. simpl.
    rewrite (loop_failed_untouched w ts _ t e); [done| |done].
    by rewrite (merge_table_signal w t _ st).
Qed.

Lemma failed_table_writes_nothing_witness :
  (output_db (merge_one scouting {| connections := []; output_db := ∅; stdout := [] |}
                "ghost") = ∅
   ∧ ∃ evs, stdout (merge_one scouting
                      {| connections := []; output_db := ∅; stdout := [] |} "ghost")
            = [] ++ MergingTable "ghost" :: evs
                 ++ [ErrorMerging "ghost" (DatabaseError "no such table")])
  ∧ output_db (merge_databases scouting "priority.db" "fallback.db" "out.db").2 !! "ghost"
    = sink scouting !! "ghost".
Proof.
  apply (failed_table_writes_nothing scouting "priority.db" "fallback.db" "out.db"
           ["teams"; "MATCHES"; "notes"; "events"; "ghost"] "ghost"
           (DatabaseError "no such table")
           {| connections := []; output_db := ∅; stdout := [] |});
    first [ reflexivity | discriminate ].
Defined.




(** The table [teams] that the output database held before that run is
    gone after it. *)
Example interrupted_write_loses_table :
  sink interrupted !! "teams" = Some teams_f
  ∧ output_db (merge_databases interrupted "priority.db" "fallback.db" "out.db").2
      !! "teams" = None.
Proof. split; vm_compute; reflexivity. Qed.

(** ** MergeOrchestrator: the run as a whole *)

(** X11: an exception leaves [merge_databases] only from opening one of
    the three connections or from listing the priority tables, that is
    before any table is processed: nothing has been printed and the output
    database is as it was. *)
Theorem uncaught_only_before_loop w p f o e :
  (merge_databases w p f o).1 = Uncaught e →
  (connect w p = Some e ∨ connect w f = Some e ∨ connect w o = Some e
   ∨ sqlite_master w = Raise e)
  ∧ stdout (merge_databases w p f o).2 = []
  ∧ output_db (merge_databases w p f o).2 = sink w.
Proof.
  unfold merge_databases.
  destruct (first_missing w [p; f]); [done|].
  destruct (connect w p) as [e1|]; [intros [= ->]; auto|].
  destruct (connect w f) as [e2|]; [intros [= ->]; auto|].
  destruct (connect w o) as [e3|]; [intros [= ->]; auto 6|].
  destruct (sqlite_master w) as [ts|e4]; [done|].
  intros [= ->]. auto 6.
Qed.

Lemma uncaught_only_before_loop_witness :
  (connect corrupt_priority "priority.db" = Some (DatabaseError "file is not a database")
   ∨ connect corrupt_priority "fallback.db" = Some (DatabaseError "file is not a database")
   ∨ connect corrupt_priority "out.db" = Some (DatabaseError "file is not a database")
   ∨ sqlite_master corrupt_priority = Raise (DatabaseError "file is not a database"))
  ∧ stdout (merge_databases corrupt_priority "priority.db" "fallback.db" "out.db").2 = []
  ∧ output_db (merge_databases corrupt_priority "priority.db" "fallback.db" "out.db").2
    = sink corrupt_priority.
Proof.
  apply (uncaught_only_before_loop corrupt_priority "priority.db" "fallback.db" "out.db").
  reflexivity.
Defined.

(** X12: the run writes only under names that the priority source lists:
    whatever else the output database held, a table of the fallback source
    alone included, is left as it was. *)
Theorem unlisted_table_untouched w p f o t :
  (∀ ts, sqlite_master w = Ok ts → t ∉ ts) →
  output_db (merge_databases w p f o).2 !! t = sink w !! t.
Proof.
  intros Hni. unfold merge_databases.
  destruct (first_missing w [p; f]); [done|].
  destruct (connect w p); [done|].
  destruct (connect w f); [done|].
  destruct (connect w o); [done|].
  destruct (sqlite_master w) as [ts|e]; [|done].
  simpl. rewrite loop_output_other; [done|]. by apply Hni.
Qed.

Lemma unlisted_table_untouched_witness :
  output_db (merge_databases scouting "priority.db" "fallback.db" "out.db").2
    !! "fallback_only"
  = sink scouting !! "fallback_only".
Proof.
  apply (unlisted_table_untouched scouting "priority.db" "fallback.db" "out.db").
  intros ts [= <-]. apply (bool_decide_unpack _). vm_compute. exact I.
Defined.

(** X13: the completion message is the last line printed exactly when the
    run returns, and not when a missing path or an exception stops it. *)
Theorem completion_message_iff_returned w p f o :
  (merge_databases w p f o).1 = Returned
  ↔ last (stdout (merge_databases w p f o).2) = Some (MergeComplete o).
Proof.
  unfold merge_databases.
  destruct (first_missing w [p; f]); [done|].
  destruct (connect w p); [done|].
  destruct (connect w f); [done|].
  destruct (connect w o); [done|].
  destruct (sqlite_master w) as [ts|e]; [|done].
  simpl. by rewrite last_snoc.
Qed.
